(** * SessionRedisService: the in-memory session store

    A shallow embedding of the mock [SessionRedisService] (entries with a
    time-to-live, member presence) and the properties of its operations.

    Conventions of the embedding.
    - Instants are integers, the milliseconds since the epoch that
      [Date.now()] and [Date.prototype.getTime] return.  The fields
      [createdAt] and [expiresAt] of an entry are ISO-8601 strings in the
      source, written by [toISOString] and read back by [new Date(...)]; the
      embedding stores the instant such a string denotes.
    - [ttl] is an integral number of seconds.
    - A JavaScript [Map] iterates in insertion order, and [set] on a key
      that is present keeps the position of that key: maps are association
      lists with that discipline.
    - Every method reads the clock once and touches the maps before its
      first [await]; a method is one atomic step that receives the clock
      reading [now].  The identifier drawn by [uuidv4()] is an input of
      [addEntry]. *)

From Stdlib Require Import ZArith List String Ascii Bool Lia Permutation Sorted.
Import ListNotations.

Local Open Scope string_scope.
Local Open Scope list_scope.
Local Open Scope Z_scope.

(** ** Data model *)

Module Entry.
(** [RedisEntry], the static type of [redisEntrySchema]. *)
Record t : Type := mk {
  id : string;
  text : string;
  createdAt : Z;
  expiresAt : Z;
  ttl : Z;
  imageUrl : option string;
  memberId : string
}.
End Entry.

Definition RedisEntry : Type := Entry.t.

Module Member.
(** The value type of [mockMembers]. *)
Record t : Type := mk {
  sessionId : string;
  memberId : string;
  lastSeen : Z
}.
End Member.

(** ** JavaScript [Map] with string keys *)

Module JsMap.
Section Ops.
Context {V : Type}.

Definition t := list (string * V).

Definition empty : t := [].

Fixpoint get (m : t) (k : string) : option V :=
  match m with
  | [] => None
  | (k', v) :: m' => if String.eqb k k' then Some v else get m' k
  end.

Definition has (m : t) (k : string) : bool :=
  match get m k with Some _ => true | None => false end.

(** [set] replaces the value in place when the key is present and
    appends the pair otherwise. *)
Fixpoint set (m : t) (k : string) (v : V) : t :=
  match m with
  | [] => [(k, v)]
  | (k', v') :: m' =>
      if String.eqb k k' then (k', v) :: m' else (k', v') :: set m' k v
  end.

Fixpoint delete (m : t) (k : string) : t :=
  match m with
  | [] => []
  | (k', v') :: m' =>
      if String.eqb k k' then m' else (k', v') :: delete m' k
  end.

(** [entries()], in iteration order. *)
Definition entries (m : t) : list (string * V) := m.

Definition keys (m : t) : list string := map fst m.
End Ops.
Arguments t : clear implicits.
End JsMap.

(** ** [Array.prototype.sort]

    The sort is stable and orders by the sign of the comparator; for a
    consistent comparator that fixes the result, computed here by
    insertion. *)

Section ArraySort.
Context {A : Type}.
Variable compareFn : A -> A -> Z.

Fixpoint sort_insert (x : A) (l : list A) : list A :=
  match l with
  | [] => [x]
  | y :: l' => if compareFn x y <=? 0 then x :: y :: l' else y :: sort_insert x l'
  end.

Fixpoint Array_sort (l : list A) : list A :=
  match l with
  | [] => []
  | x :: l' => sort_insert x (Array_sort l')
  end.
End ArraySort.

(** ** Module state *)

(** [Date]: a time value is valid within 8.64e15 ms of the epoch;
    [toISOString] throws a [RangeError] on an invalid date. *)
Definition maxTimeValue : Z := 8640000000000000.

Definition validTimeValue (t : Z) : bool :=
  (- maxTimeValue <=? t) && (t <=? maxTimeValue).

(** The module-level bindings [mockEntries], [mockMembers], and the
    instant at which the module was evaluated, from which the constant
    [sampleEntries] is built: the [Date.now()] reads of its initialiser
    are taken as one reading, [loadTime]. *)
Record Store : Type := mkStore {
  mockEntries : JsMap.t RedisEntry;
  mockMembers : JsMap.t Member.t;
  loadTime : Z
}.

(** The state once the module has been evaluated at instant [t0]. *)
Definition moduleInit (t0 : Z) : Store :=
  {| mockEntries := JsMap.empty; mockMembers := JsMap.empty; loadTime := t0 |}.

Definition sampleEntries (st : Store) : list RedisEntry :=
  [ Entry.mk "entry-1"
      "Welcome to the session! This is a sample entry."
      (loadTime st - 5000) (loadTime st + 3600000) 3600
      (Some "https://picsum.photos/seed/1/400/300") "member-1";
    Entry.mk "entry-2"
      "This is another sample entry with some interesting content."
      (loadTime st - 10000) (loadTime st + 7200000) 7200
      None "member-2";
    Entry.mk "entry-3"
      "Mock data is great for testing without external dependencies!"
      (loadTime st - 15000) (loadTime st + 1800000) 1800
      (Some "https://picsum.photos/seed/2/400/300") "member-1" ].

(** An instance of the class.  The class declares no field: an object is
    its identity and nothing else. *)
Record SessionRedisService : Type := newSessionRedisService {
  objectId : nat
}.

(** ** The methods *)

Section Service.
(** [ENTRIES_REFETCH_INTERVAL_MS] is imported from [@/lib/constants].
    [MAX_TTL] is imported from there too, and no method reads it. *)
Variable ENTRIES_REFETCH_INTERVAL_MS : Z.

Definition getEntryKey (sessionId entryId : string) : string :=
  ("session:" ++ sessionId ++ ":entry:" ++ entryId)%string.

Definition getEntryIndexKey (sessionId : string) : string :=
  ("session:" ++ sessionId ++ ":entries")%string.

Definition getMemberIndexKey (sessionId : string) : string :=
  ("session:" ++ sessionId ++ ":members")%string.

Definition getMemberKey (sessionId memberId : string) : string :=
  ("session:" ++ sessionId ++ ":member:" ++ memberId)%string.

Definition getMemberTTL : Z :=
  ENTRIES_REFETCH_INTERVAL_MS / 1000 + 10.

Definition trackMember (st : Store) (now : Z)
    (sessionId memberId : string) : Store :=
  let memberKey := getMemberKey sessionId memberId in
  {| mockEntries := mockEntries st;
     mockMembers :=
       JsMap.set (mockMembers st) memberKey
         (Member.mk sessionId memberId now);
     loadTime := loadTime st |}.

(** The loop of [getOnlineMemberCount]: the records of the session seen
    less than [memberTTL] milliseconds ago. *)
Definition isOnline (sessionId : string) (now memberTTL : Z)
    (kv : string * Member.t) : bool :=
  String.eqb (Member.sessionId (snd kv)) sessionId
  && (now - Member.lastSeen (snd kv) <? memberTTL).

Definition onlineCount (st : Store) (now : Z) (sessionId : string) : Z :=
  let memberTTL := getMemberTTL * 1000 in
  Z.of_nat
    (List.length
       (filter (isOnline sessionId now memberTTL)
          (JsMap.entries (mockMembers st)))).

Definition getOnlineMemberCount (st : Store) (now : Z)
    (sessionId : string) : Z :=
  Z.max 3 (onlineCount st now sessionId).

(** [imageUrl && { imageUrl }]: the field is present for a non-empty
    string only. *)
Definition spreadImageUrl (imageUrl : option string) : option string :=
  match imageUrl with
  | Some u => if String.eqb u "" then None else Some u
  | None => None
  end.

Definition newEntry (now : Z) (entryId text : string) (ttl : Z)
    (imageUrl : option string) (memberId : string) : RedisEntry :=
  Entry.mk entryId text now (now + ttl * 1000) ttl
    (spreadImageUrl imageUrl) memberId.

(** [None] is the [RangeError] of [expiresAt.toISOString()], thrown
    before the map is touched. *)
Definition addEntry (st : Store) (now : Z) (entryId : string)
    (text : string) (ttl : Z) (imageUrl : option string)
    (sessionId memberId : string) : option (Store * RedisEntry) :=
  if validTimeValue (now + ttl * 1000) then
    let entry := newEntry now entryId text ttl imageUrl memberId in
    let entryKey := getEntryKey sessionId entryId in
    Some ({| mockEntries := JsMap.set (mockEntries st) entryKey entry;
             mockMembers := mockMembers st;
             loadTime := loadTime st |}, entry)
  else None.

Definition compareCreatedAtDesc (a b : RedisEntry) : Z :=
  Entry.createdAt b - Entry.createdAt a.

Definition startsWith (s p : string) : bool := String.prefix p s.

Definition isSessionLive (sessionId : string) (now : Z)
    (kv : string * RedisEntry) : bool :=
  startsWith (fst kv) ("session:" ++ sessionId ++ ":entry:")%string
  && (now <? Entry.expiresAt (snd kv)).

Definition sessionEntries (st : Store) (now : Z) (sessionId : string)
    : list RedisEntry :=
  map snd
    (filter (isSessionLive sessionId now) (JsMap.entries (mockEntries st))).

Definition getAllEntries (st : Store) (now : Z) (sessionId : string)
    : list RedisEntry :=
  let found := sessionEntries st now sessionId in
  if (List.length found =? 0)%nat then
    Array_sort compareCreatedAtDesc (sampleEntries st)
  else
    Array_sort compareCreatedAtDesc found.

Definition getEntry (st : Store) (now : Z) (sessionId entryId : string)
    : Store * option RedisEntry :=
  let entryKey := getEntryKey sessionId entryId in
  match JsMap.get (mockEntries st) entryKey with
  | None => (st, hd_error (sampleEntries st))
  | Some entry =>
      if Entry.expiresAt entry <=? now then
        ({| mockEntries := JsMap.delete (mockEntries st) entryKey;
            mockMembers := mockMembers st;
            loadTime := loadTime st |}, None)
      else (st, Some entry)
  end.

Definition deleteEntry (st : Store) (sessionId entryId : string)
    : Store * bool :=
  let entryKey := getEntryKey sessionId entryId in
  let existed := JsMap.has (mockEntries st) entryKey in
  ({| mockEntries := JsMap.delete (mockEntries st) entryKey;
      mockMembers := mockMembers st;
      loadTime := loadTime st |}, existed).
End Service.

(** ** Calls and traces

    A call is a method together with its arguments, the clock reading it
    makes and, for [addEntry], the identifier [uuidv4()] hands it. *)

Inductive call : Type :=
| TrackMember (now : Z) (sessionId memberId : string)
| GetOnlineMemberCount (now : Z) (sessionId : string)
| AddEntry (now : Z) (entryId text : string) (ttl : Z)
    (imageUrl : option string) (sessionId memberId : string)
| GetAllEntries (now : Z) (sessionId : string)
| GetEntry (now : Z) (sessionId entryId : string)
| DeleteEntry (sessionId entryId : string).

(** What the promise of a call settles to. *)
Inductive outcome : Type :=
| Resolved
| ResolvedCount (n : Z)
| ResolvedEntry (e : RedisEntry)
| ResolvedEntries (l : list RedisEntry)
| ResolvedLookup (r : option RedisEntry)
| ResolvedBool (b : bool)
| RejectedRangeError.

Section Traces.
Variable ENTRIES_REFETCH_INTERVAL_MS : Z.

(** A method call on the object [this].  No method reads a field of
    [this]: every one of them works on the module-level maps. *)
Definition invoke (this : SessionRedisService) (c : call) (st : Store)
    : Store * outcome :=
  match c with
  | TrackMember now sessionId memberId =>
      (trackMember st now sessionId memberId, Resolved)
  | GetOnlineMemberCount now sessionId =>
      (st, ResolvedCount
             (getOnlineMemberCount ENTRIES_REFETCH_INTERVAL_MS st now sessionId))
  | AddEntry now entryId text ttl imageUrl sessionId memberId =>
      match addEntry st now entryId text ttl imageUrl sessionId memberId with
      | Some (st', e) => (st', ResolvedEntry e)
      | None => (st, RejectedRangeError)
      end
  | GetAllEntries now sessionId =>
      (st, ResolvedEntries (getAllEntries st now sessionId))
  | GetEntry now sessionId entryId =>
      let (st', r) := getEntry st now sessionId entryId in
      (st', ResolvedLookup r)
  | DeleteEntry sessionId entryId =>
      let (st', b) := deleteEntry st sessionId entryId in
      (st', ResolvedBool b)
  end.

(** The store after a sequence of calls, each made on some instance. *)
Fixpoint run (st : Store) (tr : list (SessionRedisService * call)) : Store :=
  match tr with
  | [] => st
  | (this, c) :: tr' => run (fst (invoke this c st)) tr'
  end.
End Traces.

(** The [addEntry] calls of a trace that returned an entry. *)
Definition addedUnder (tr : list (SessionRedisService * call))
    (sessionId : string) (e : RedisEntry) : Prop :=
  exists this now entryId text ttl imageUrl memberId,
    In (this, AddEntry now entryId text ttl imageUrl sessionId memberId) tr
    /\ validTimeValue (now + ttl * 1000) = true
    /\ e = newEntry now entryId text ttl imageUrl memberId.

(** ** Identifiers *)

Definition colon : ascii := ":"%char.

Fixpoint colonFree (s : string) : bool :=
  match s with
  | EmptyString => true
  | String c s' => negb (Ascii.eqb c colon) && colonFree s'
  end.

(** The session identifiers that a trace adds entries under. *)
Fixpoint addSessions (tr : list (SessionRedisService * call)) : list string :=
  match tr with
  | [] => []
  | (_, AddEntry _ _ _ _ _ sessionId _) :: tr' => sessionId :: addSessions tr'
  | _ :: tr' => addSessions tr'
  end.

(** The identifiers [uuidv4()] returned along a trace. *)
Fixpoint drawnIds (tr : list (SessionRedisService * call)) : list string :=
  match tr with
  | [] => []
  | (_, AddEntry _ entryId _ _ _ _ _) :: tr' => entryId :: drawnIds tr'
  | _ :: tr' => drawnIds tr'
  end.

(** A version-4 identifier in its canonical text form,
    [xxxxxxxx-xxxx-4xxx-yxxx-xxxxxxxxxxxx] with [x] a lower-case
    hexadecimal digit and [y] one of [8], [9], [a], [b]. *)
Definition isHex (c : ascii) : bool :=
  let n := nat_of_ascii c in
  ((48 <=? n)%nat && (n <=? 57)%nat) || ((97 <=? n)%nat && (n <=? 102)%nat).

Definition isVariant (c : ascii) : bool :=
  Ascii.eqb c "8" || Ascii.eqb c "9" || Ascii.eqb c "a" || Ascii.eqb c "b".

Fixpoint matchesLayout (layout s : string) : bool :=
  match layout, s with
  | EmptyString, EmptyString => true
  | String p layout', String c s' =>
      (if Ascii.eqb p "x" then isHex c
       else if Ascii.eqb p "y" then isVariant c
       else Ascii.eqb c p)
      && matchesLayout layout' s'
  | _, _ => false
  end.

Definition isUuidV4 (s : string) : bool :=
  matchesLayout "xxxxxxxx-xxxx-4xxx-yxxx-xxxxxxxxxxxx" s.

Fixpoint distinct (l : list string) : bool :=
  match l with
  | [] => true
  | x :: l' => negb (existsb (String.eqb x) l') && distinct l'
  end.

(** [uuidv4()] behaved along the trace: well-formed identifiers, no two
    alike. *)
Definition freshUuids (tr : list (SessionRedisService * call)) : bool :=
  forallb isUuidV4 (drawnIds tr) && distinct (drawnIds tr).

(** ** Orderings of a result *)

(** Newest first. *)
Definition newestFirst (l : list RedisEntry) : Prop :=
  StronglySorted (fun a b => Entry.createdAt b <= Entry.createdAt a) l.

(** The entries of [l] created at instant [c], in the order of [l]. *)
Definition createdAtInstant (c : Z) (l : list RedisEntry) : list RedisEntry :=
  filter (fun e => Entry.createdAt e =? c) l.

(** ** Invariants of the entry map *)

(** Every key is the key of its entry's own identifier in some session. *)
Definition keyedById (st : Store) : Prop :=
  forall k e, In (k, e) (mockEntries st) ->
    exists sessionId, k = getEntryKey sessionId (Entry.id e).

(** The keys are pairwise distinct, every stored identifier is one of
    [ids], and an identifier is stored under one key only. *)
Definition idsOk (ids : list string) (st : Store) : Prop :=
  NoDup (JsMap.keys (mockEntries st))
  /\ (forall k e, In (k, e) (mockEntries st) -> In (Entry.id e) ids)
  /\ (forall k k' e e', In (k, e) (mockEntries st) ->
        In (k', e') (mockEntries st) -> Entry.id e = Entry.id e' -> k = k').

(** No stored entry carries the identifier [u]. *)
Definition idAbsent (u : string) (st : Store) : Prop :=
  forall k e, In (k, e) (mockEntries st) -> Entry.id e <> u.

(** A member record that no longer counts as online at [now]. *)
Definition stale (interval now : Z) (m : Member.t) : Prop :=
  getMemberTTL interval * 1000 <= now - Member.lastSeen m.

(** The store with the member record under key [k] taken out. *)
Definition withoutMember (st : Store) (k : string) : Store :=
  {| mockEntries := mockEntries st;
     mockMembers := JsMap.delete (mockMembers st) k;
     loadTime := loadTime st |}.

(** Every record of the session is stale at [now]. *)
Definition allStale (interval now : Z) (sessionId : string) (st : Store)
    : bool :=
  forallb
    (fun kv : string * Member.t =>
       negb (String.eqb (Member.sessionId (snd kv)) sessionId)
       || (getMemberTTL interval * 1000 <=? now - Member.lastSeen (snd kv)))
    (JsMap.entries (mockMembers st)).

(** ** Sample inputs *)

Definition uuidA : string := "123e4567-e89b-42d3-a456-426614174000".
Definition uuidB : string := "9b2e1c3a-5d7f-4a1b-8c2d-0123456789ab".

Definition serviceA : SessionRedisService := newSessionRedisService 1.
Definition serviceB : SessionRedisService := newSessionRedisService 2.

(** One entry of session [s1], added at instant 1000 to live one second. *)
Definition storeOneEntry : Store :=
  match addEntry (moduleInit 0) 1000 uuidA "hello" 1 None "s1" "m1" with
  | Some (st, _) => st
  | None => moduleInit 0
  end.

(** Two members of session [s1], seen at instants 0 and 10. *)
Definition storeTwoMembers : Store :=
  trackMember (trackMember (moduleInit 0) 0 "s1" "m1") 10 "s1" "m2".

(** ** Calls by what they touch *)

Definition isTrack (c : call) : bool :=
  match c with
  | TrackMember _ _ _ => true
  | _ => false
  end.

(** The key of the entry map that a call may write: the one it sets or
    deletes. *)
Definition touchedKey (c : call) : option string :=
  match c with
  | AddEntry _ entryId _ _ _ sessionId _ => Some (getEntryKey sessionId entryId)
  | GetEntry _ sessionId entryId => Some (getEntryKey sessionId entryId)
  | DeleteEntry sessionId entryId => Some (getEntryKey sessionId entryId)
  | _ => None
  end.

(** An [addEntry] to [sessionId] whose date is valid and whose entry is
    still live at [now]. *)
Definition liveAddTo (sessionId : string) (now : Z)
    (tc : SessionRedisService * call) : bool :=
  match snd tc with
  | AddEntry at_ _ _ ttl _ sessionId' _ =>
      String.eqb sessionId' sessionId
      && validTimeValue (at_ + ttl * 1000)
      && (now <? at_ + ttl * 1000)
  | _ => false
  end.

(** The heartbeats of a trace. *)
Definition trackedIn (tr : list (SessionRedisService * call))
    (m : Member.t) : Prop :=
  exists this,
    In (this, TrackMember (Member.lastSeen m) (Member.sessionId m)
                (Member.memberId m)) tr.

(** ** Facts about maps *)

Section JsMapFacts.
Context {V : Type}.
Implicit Types (m : JsMap.t V) (k : string) (v : V).

Lemma get_set_same m k v : JsMap.get (JsMap.set m k v) k = Some v.
Proof.
  induction m as [|[k' v'] m IH]; simpl.
  - now rewrite String.eqb_refl.
  - destruct (String.eqb k k') eqn:E; simpl; rewrite E; auto.
Qed.

Lemma get_set_other m k k' v :
  k <> k' -> JsMap.get (JsMap.set m k v) k' = JsMap.get m k'.
Proof.
  intros Hne. induction m as [|[k0 v0] m IH]; simpl.
  - destruct (String.eqb k' k) eqn:E; auto.
    apply String.eqb_eq in E. congruence.
  - destruct (String.eqb k k0) eqn:E; simpl.
    + apply String.eqb_eq in E. subst k0.
      destruct (String.eqb k' k) eqn:E'; auto.
      apply String.eqb_eq in E'. congruence.
    + destruct (String.eqb k' k0); auto.
Qed.

Lemma set_absent_appends m k v :
  JsMap.get m k = None -> JsMap.set m k v = m ++ [(k, v)].
Proof.
  induction m as [|[k' v'] m IH]; simpl; auto.
  destruct (String.eqb k k'); [discriminate|].
  intros H. now rewrite IH.
Qed.

Lemma in_set m k v k' v' :
  In (k', v') (JsMap.set m k v) -> (k' = k /\ v' = v) \/ In (k', v') m.
Proof.
  induction m as [|[k0 v0] m IH]; simpl.
  - intros [H|[]]. inversion H; auto.
  - destruct (String.eqb k k0) eqn:E; simpl.
    + apply String.eqb_eq in E. subst k0.
      intros [H|H]; [inversion H; auto | auto].
    + intros [H|H]; [auto | destruct (IH H); auto].
Qed.

Lemma in_delete m k p : In p (JsMap.delete m k) -> In p m.
Proof.
  induction m as [|[k0 v0] m IH]; simpl; auto.
  destruct (String.eqb k k0); simpl; intuition.
Qed.

Lemma keys_set m k v k' :
  In k' (JsMap.keys (JsMap.set m k v)) -> k' = k \/ In k' (JsMap.keys m).
Proof.
  unfold JsMap.keys. intros H. apply in_map_iff in H.
  destruct H as [[k0 v0] [<- H]]. apply in_set in H.
  destruct H as [[-> _]|H]; auto.
  right. apply in_map_iff. now exists (k0, v0).
Qed.

Lemma keys_delete m k k' :
  In k' (JsMap.keys (JsMap.delete m k)) -> In k' (JsMap.keys m).
Proof.
  unfold JsMap.keys. intros H. apply in_map_iff in H.
  destruct H as [p [<- H]]. apply in_delete in H.
  apply in_map_iff. now exists p.
Qed.

Lemma NoDup_keys_set m k v :
  NoDup (JsMap.keys m) -> NoDup (JsMap.keys (JsMap.set m k v)).
Proof.
  induction m as [|[k0 v0] m IH]; simpl; intros H.
  - constructor; [intros [] | constructor].
  - inversion H as [|? ? Hn Hd]; subst.
    destruct (String.eqb k k0) eqn:E; simpl.
    + now constructor.
    + constructor; auto.
      intros Hin. apply keys_set in Hin. destruct Hin as [->|Hin]; auto.
      now rewrite String.eqb_refl in E.
Qed.

Lemma NoDup_keys_delete m k :
  NoDup (JsMap.keys m) -> NoDup (JsMap.keys (JsMap.delete m k)).
Proof.
  induction m as [|[k0 v0] m IH]; simpl; intros H; auto.
  inversion H as [|? ? Hn Hd]; subst.
  destruct (String.eqb k k0); auto.
  simpl. constructor; auto.
  intros Hin. now apply keys_delete in Hin.
Qed.

Lemma get_none_keys m k : JsMap.get m k = None <-> ~ In k (JsMap.keys m).
Proof.
  induction m as [|[k0 v0] m IH]; simpl.
  - tauto.
  - destruct (String.eqb k k0) eqn:E.
    + apply String.eqb_eq in E. subst. split; [discriminate | tauto].
    + apply String.eqb_neq in E. rewrite IH. split.
      * intros H [H1|H1]; auto.
      * tauto.
Qed.

Lemma get_in m k v : JsMap.get m k = Some v -> In (k, v) m.
Proof.
  induction m as [|[k0 v0] m IH]; simpl; [discriminate|].
  destruct (String.eqb k k0) eqn:E.
  - apply String.eqb_eq in E. intros H. inversion H. subst. auto.
  - auto.
Qed.

Lemma in_get m k v : NoDup (JsMap.keys m) -> In (k, v) m -> JsMap.get m k = Some v.
Proof.
  induction m as [|[k0 v0] m IH]; simpl; [tauto|].
  intros H Hin. inversion H as [|? ? Hn Hd]; subst.
  destruct Hin as [Heq|Hin].
  - inversion Heq; subst. now rewrite String.eqb_refl.
  - destruct (String.eqb k k0) eqn:E; auto.
    apply String.eqb_eq in E. subst. exfalso. apply Hn.
    unfold JsMap.keys. apply in_map_iff. now exists (k0, v).
Qed.

Lemma delete_removes_key m k :
  NoDup (JsMap.keys m) -> ~ In k (JsMap.keys (JsMap.delete m k)).
Proof.
  induction m as [|[k0 v0] m IH]; simpl; intros H; auto.
  inversion H as [|? ? Hn Hd]; subst.
  destruct (String.eqb k k0) eqn:E.
  - apply String.eqb_eq in E. now subst.
  - apply String.eqb_neq in E. simpl. intros [H1|H1]; [congruence|].
    now apply IH.
Qed.

Lemma get_delete_same m k :
  NoDup (JsMap.keys m) -> JsMap.get (JsMap.delete m k) k = None.
Proof.
  intros H. apply get_none_keys. now apply delete_removes_key.
Qed.

Lemma delete_absent m k : JsMap.get m k = None -> JsMap.delete m k = m.
Proof.
  induction m as [|[k0 v0] m IH]; simpl; auto.
  destruct (String.eqb k k0); [discriminate|].
  intros H. now rewrite IH.
Qed.
End JsMapFacts.

(** ** Facts about the sort *)

Section SortFacts.
Context {A : Type}.
Variable compareFn : A -> A -> Z.

Lemma sort_insert_perm x l : Permutation (sort_insert compareFn x l) (x :: l).
Proof.
  induction l as [|y l IH]; simpl; auto.
  destruct (compareFn x y <=? 0); auto.
  rewrite IH. apply perm_swap.
Qed.

Lemma Array_sort_perm l : Permutation (Array_sort compareFn l) l.
Proof.
  induction l as [|x l IH]; simpl; auto.
  rewrite sort_insert_perm. now constructor.
Qed.

Lemma Array_sort_in l x : In x (Array_sort compareFn l) <-> In x l.
Proof.
  split; apply Permutation_in;
    [apply Array_sort_perm | apply Permutation_sym, Array_sort_perm].
Qed.

Lemma Array_sort_length l : List.length (Array_sort compareFn l) = List.length l.
Proof. apply Permutation_length, Array_sort_perm. Qed.
End SortFacts.

Lemma sort_insert_newestFirst x l :
  newestFirst l -> newestFirst (sort_insert compareCreatedAtDesc x l).
Proof.
  unfold newestFirst.
  induction l as [|y l IH]; simpl; intros H.
  - repeat constructor.
  - inversion H as [|? ? Hs Hall]; subst.
    unfold compareCreatedAtDesc at 1.
    destruct (Z.leb_spec (Entry.createdAt y - Entry.createdAt x) 0) as [Hle|Hgt].
    + constructor; auto. constructor; [lia|].
      eapply Forall_impl; [|exact Hall]. simpl. intros; lia.
    + constructor; auto.
      eapply Permutation_Forall;
        [apply Permutation_sym, sort_insert_perm|].
      constructor; [lia | auto].
Qed.

Lemma Array_sort_newestFirst l :
  newestFirst (Array_sort compareCreatedAtDesc l).
Proof.
  induction l as [|x l IH]; simpl.
  - constructor.
  - now apply sort_insert_newestFirst.
Qed.

Lemma sort_insert_stable c x l :
  createdAtInstant c (sort_insert compareCreatedAtDesc x l)
  = createdAtInstant c (x :: l).
Proof.
  unfold createdAtInstant.
  induction l as [|y l IH]; simpl; auto.
  unfold compareCreatedAtDesc at 1.
  destruct (Z.leb_spec (Entry.createdAt y - Entry.createdAt x) 0) as [Hle|Hgt];
    auto.
  simpl. rewrite IH. simpl.
  destruct (Z.eqb_spec (Entry.createdAt x) c) as [Hx|Hx]; auto.
  destruct (Z.eqb_spec (Entry.createdAt y) c) as [Hy|Hy]; auto.
  lia.
Qed.

Lemma Array_sort_stable c l :
  createdAtInstant c (Array_sort compareCreatedAtDesc l)
  = createdAtInstant c l.
Proof.
  induction l as [|x l IH]; simpl; auto.
  rewrite sort_insert_stable. unfold createdAtInstant in *. simpl.
  now rewrite IH.
Qed.

Lemma sort_insert_head {A : Type} (compareFn : A -> A -> Z) x y l :
  compareFn x y <= 0 -> sort_insert compareFn x (y :: l) = x :: y :: l.
Proof.
  intros H. simpl. apply Z.leb_le in H. now rewrite H.
Qed.

(** The samples are declared newest first already. *)
Lemma sampleEntries_sorted st :
  Array_sort compareCreatedAtDesc (sampleEntries st) = sampleEntries st.
Proof.
  unfold sampleEntries.
  cbn [Array_sort].
  change (sort_insert compareCreatedAtDesc ?x []) with [x].
  rewrite sort_insert_head by (unfold compareCreatedAtDesc; cbn; lia).
  rewrite sort_insert_head by (unfold compareCreatedAtDesc; cbn; lia).
  reflexivity.
Qed.

(** ** Facts about keys and identifiers *)

Lemma prefix_app_same p a b :
  String.prefix (p ++ a)%string (p ++ b)%string = String.prefix a b.
Proof.
  induction p as [|c p IH]; simpl; auto.
  destruct (ascii_dec c c); [auto | congruence].
Qed.

Lemma prefix_app p r : String.prefix p (p ++ r)%string = true.
Proof.
  induction p as [|c p IH]; simpl; [now destruct r|].
  destruct (ascii_dec c c); [auto | congruence].
Qed.

Lemma app_assoc_string (a b c : string) :
  ((a ++ b) ++ c = a ++ (b ++ c))%string.
Proof. induction a as [|x a IH]; simpl; congruence. Qed.

(** A key starts with the prefix of its own session. *)
Lemma startsWith_own_session sessionId entryId :
  startsWith (getEntryKey sessionId entryId)
    ("session:" ++ sessionId ++ ":entry:")%string = true.
Proof.
  unfold startsWith, getEntryKey.
  change ("session:" ++ sessionId ++ ":entry:" ++ entryId)%string
    with ("session:" ++ (sessionId ++ ":entry:" ++ entryId))%string.
  rewrite prefix_app_same.
  change (":entry:" ++ entryId)%string with (":entry:" ++ entryId)%string.
  rewrite <- (app_assoc_string sessionId ":entry:" entryId).
  apply prefix_app.
Qed.

Lemma prefix_cons a b s1 s2 :
  String.prefix (String a s1) (String b s2)
  = Ascii.eqb a b && String.prefix s1 s2.
Proof.
  simpl. destruct (ascii_dec a b) as [->|Hne].
  - now rewrite Ascii.eqb_refl.
  - apply Ascii.eqb_neq in Hne. now rewrite Hne.
Qed.

(** Two identifiers without a colon that agree up to their first colon
    are the same. *)
Lemma colonFree_prefix_eq s s' r r' :
  colonFree s = true -> colonFree s' = true ->
  String.prefix (s ++ String colon r)%string (s' ++ String colon r')%string
    = true ->
  s = s'.
Proof.
  revert s'. induction s as [|c s IH]; intros [|c' s'];
    cbn [colonFree append]; auto; rewrite prefix_cons;
    intros H H' Hp; apply andb_prop in Hp; destruct Hp as [Hc Hp].
  - apply andb_prop in H'. destruct H' as [H' _].
    rewrite Ascii.eqb_sym in Hc. now rewrite Hc in H'.
  - apply andb_prop in H. destruct H as [H _]. now rewrite Hc in H.
  - apply andb_prop in H. apply andb_prop in H'.
    apply Ascii.eqb_eq in Hc. subst c'. f_equal.
    apply IH; tauto.
Qed.

(** Among identifiers without a colon, the prefix of a session selects
    the keys of that session only. *)
Lemma startsWith_session_inv sessionId sessionId' entryId :
  colonFree sessionId = true -> colonFree sessionId' = true ->
  startsWith (getEntryKey sessionId' entryId)
    ("session:" ++ sessionId ++ ":entry:")%string = true ->
  sessionId = sessionId'.
Proof.
  unfold startsWith, getEntryKey. intros H H'.
  change ("session:" ++ sessionId ++ ":entry:")%string
    with ("session:" ++ (sessionId ++ String colon "entry:"))%string.
  change ("session:" ++ sessionId' ++ ":entry:" ++ entryId)%string
    with ("session:" ++ (sessionId' ++ String colon ("entry:" ++ entryId)))%string.
  rewrite prefix_app_same. now apply colonFree_prefix_eq.
Qed.

Lemma matchesLayout_length layout s :
  matchesLayout layout s = true -> String.length s = String.length layout.
Proof.
  revert s. induction layout as [|p layout IH]; intros [|c s]; simpl;
    try discriminate; auto.
  intros H. apply andb_prop in H. destruct H as [_ H]. f_equal. auto.
Qed.

Lemma isUuidV4_length s : isUuidV4 s = true -> String.length s = 36%nat.
Proof. intros H. now apply matchesLayout_length in H. Qed.

(** No sample carries a version-4 identifier. *)
Lemma uuid_not_sample st e :
  In e (sampleEntries st) -> isUuidV4 (Entry.id e) = false.
Proof.
  intros H. destruct (isUuidV4 (Entry.id e)) eqn:E; auto.
  apply isUuidV4_length in E.
  simpl in H. destruct H as [<-|[<-|[<-|[]]]]; discriminate.
Qed.

Lemma existsb_eqb_in x l : existsb (String.eqb x) l = true <-> In x l.
Proof.
  rewrite existsb_exists. split.
  - intros [y [Hin E]]. apply String.eqb_eq in E. now subst.
  - intros H. exists x. split; auto. apply String.eqb_refl.
Qed.

Lemma distinct_NoDup l : distinct l = true -> NoDup l.
Proof.
  induction l as [|x l IH]; simpl; intros H; constructor.
  - apply andb_prop in H. destruct H as [H _].
    intros Hin. apply existsb_eqb_in in Hin. now rewrite Hin in H.
  - apply andb_prop in H. tauto.
Qed.

(** ** Facts about calls and traces *)

Section TraceFacts.
Variable interval : Z.

(** A pair found in the entry map after a call was there before, or is
    the one the call added. *)
Lemma invoke_entries this c st k e :
  In (k, e) (mockEntries (fst (invoke interval this c st))) ->
  In (k, e) (mockEntries st)
  \/ exists now entryId text ttl imageUrl sessionId memberId,
       c = AddEntry now entryId text ttl imageUrl sessionId memberId
       /\ validTimeValue (now + ttl * 1000) = true
       /\ k = getEntryKey sessionId entryId
       /\ e = newEntry now entryId text ttl imageUrl memberId.
Proof.
  destruct c as [now sid mid|now sid|now eid txt ttl img sid mid
                |now sid|now sid eid|sid eid]; simpl; auto.
  - unfold addEntry.
    destruct (validTimeValue (now + ttl * 1000)) eqn:Hv; simpl; auto.
    intros H. apply in_set in H. destruct H as [[-> ->]|H]; auto.
    right. now exists now, eid, txt, ttl, img, sid, mid.
  - unfold getEntry.
    destruct (JsMap.get (mockEntries st) (getEntryKey sid eid)) as [e0|];
      simpl; auto.
    destruct (Entry.expiresAt e0 <=? now); simpl; auto.
    intros H. left. eapply in_delete; eauto.
  - intros H. left. eapply in_delete; eauto.
Qed.

Lemma invoke_NoDup this c st :
  NoDup (JsMap.keys (mockEntries st)) ->
  NoDup (JsMap.keys (mockEntries (fst (invoke interval this c st)))).
Proof.
  intros H.
  destruct c as [now sid mid|now sid|now eid txt ttl img sid mid
                |now sid|now sid eid|sid eid]; simpl; auto.
  - unfold addEntry.
    destruct (validTimeValue (now + ttl * 1000)); simpl; auto.
    now apply NoDup_keys_set.
  - unfold getEntry.
    destruct (JsMap.get (mockEntries st) (getEntryKey sid eid)) as [e0|];
      simpl; auto.
    destruct (Entry.expiresAt e0 <=? now); simpl; auto.
    now apply NoDup_keys_delete.
  - now apply NoDup_keys_delete.
Qed.

Lemma run_app st tr1 tr2 :
  run interval st (tr1 ++ tr2) = run interval (run interval st tr1) tr2.
Proof.
  revert st. induction tr1 as [|[this c] tr1 IH]; simpl; auto.
Qed.

Lemma addedUnder_app_l tr tr' sessionId e :
  addedUnder tr sessionId e -> addedUnder (tr ++ tr') sessionId e.
Proof.
  intros (this & now & eid & txt & ttl & img & mid & Hin & Hv & He).
  exists this, now, eid, txt, ttl, img, mid. split; auto.
  apply in_or_app. now left.
Qed.

(** Provenance: whatever is in the entry map was put there by an
    [addEntry] of the trace, under the key of its session and its own
    identifier. *)
Lemma run_provenance tr0 tr st :
  (forall k e, In (k, e) (mockEntries st) ->
     exists sessionId,
       k = getEntryKey sessionId (Entry.id e) /\ addedUnder tr0 sessionId e) ->
  forall k e, In (k, e) (mockEntries (run interval st tr)) ->
    exists sessionId,
      k = getEntryKey sessionId (Entry.id e)
      /\ addedUnder (tr0 ++ tr) sessionId e.
Proof.
  revert tr0 st. induction tr as [|[this c] tr IH]; intros tr0 st H k e Hin.
  - simpl in Hin. rewrite app_nil_r. auto.
  - simpl in Hin.
    replace (tr0 ++ (this, c) :: tr) with ((tr0 ++ [(this, c)]) ++ tr)
      by (rewrite <- app_assoc; reflexivity).
    eapply IH; [|exact Hin].
    intros k1 e1 H1. apply invoke_entries in H1.
    destruct H1 as [H1|(now & eid & txt & ttl & img & sid & mid
                        & -> & Hv & -> & ->)].
    + destruct (H _ _ H1) as (sid & Hk & Ha). exists sid. split; auto.
      now apply addedUnder_app_l.
    + exists sid. split; [reflexivity|].
      exists this, now, eid, txt, ttl, img, mid. split; auto.
      apply in_or_app. right. now left.
Qed.

Lemma init_provenance t0 tr k e :
  In (k, e) (mockEntries (run interval (moduleInit t0) tr)) ->
  exists sessionId,
    k = getEntryKey sessionId (Entry.id e) /\ addedUnder tr sessionId e.
Proof.
  intros H. apply (run_provenance [] tr (moduleInit t0)); auto.
  simpl. tauto.
Qed.
End TraceFacts.

Lemma addedUnder_session tr sessionId e :
  addedUnder tr sessionId e -> In sessionId (addSessions tr).
Proof.
  intros (this & now & eid & txt & ttl & img & mid & Hin & _).
  induction tr as [|[this' c] tr IH]; simpl in *; [tauto|].
  destruct Hin as [H|H].
  - inversion H; subst. now left.
  - destruct c; auto. right. auto.
Qed.

(** ** The fallback to the samples *)

(** A scan over a map whose entries have all expired finds nothing, and
    so does a scan over the empty map. *)
Lemma sessionEntries_all_expired st now sessionId :
  (forall k e, In (k, e) (mockEntries st) -> Entry.expiresAt e <= now) ->
  sessionEntries st now sessionId = [].
Proof.
  unfold sessionEntries, JsMap.entries.
  induction (mockEntries st) as [|[k e] m IH]; simpl; auto.
  intros H. unfold isSessionLive at 1. simpl.
  replace (now <? Entry.expiresAt e) with false
    by (symmetry; apply Z.ltb_ge; apply (H k); now left).
  rewrite andb_false_r. apply IH. intros k' e' H'. apply (H k'). now right.
Qed.

(** C1, as stated, fails: on the freshly loaded module no session has a
    live entry, and [getAllEntries] answers with the three samples. *)
Lemma getAllEntries_fresh_store_not_empty :
  sessionEntries (moduleInit 0) 0 "s1" = []
  /\ getAllEntries (moduleInit 0) 0 "s1" <> [].
Proof. split; [reflexivity | discriminate]. Qed.

(** C1, amended: when the scan finds no live entry under the prefix of
    the session, [getAllEntries] returns the three sample entries, newest
    first: [entry-1], [entry-2], [entry-3]. *)
Theorem getAllEntries_no_live_entries st now sessionId :
  sessionEntries st now sessionId = [] ->
  getAllEntries st now sessionId = sampleEntries st
  /\ map Entry.id (getAllEntries st now sessionId)
     = ["entry-1"; "entry-2"; "entry-3"]%string.
Proof.
  intros H. unfold getAllEntries. rewrite H. simpl List.length.
  cbn [Nat.eqb]. rewrite sampleEntries_sorted. split; reflexivity.
Qed.

Lemma getAllEntries_no_live_entries_witness :
  sessionEntries storeOneEntry 2000 "s1" = []
  /\ getAllEntries storeOneEntry 2000 "s1" = sampleEntries storeOneEntry.
Proof.
  split; [reflexivity|].
  apply (getAllEntries_no_live_entries storeOneEntry 2000 "s1").
  reflexivity.
Defined.

(** C2, as stated, fails: a lookup of a key that was never set returns
    the first sample, not [null]. *)
Lemma getEntry_never_added_returns_sample :
  JsMap.get (mockEntries (moduleInit 0)) (getEntryKey "s1" uuidA) = None
  /\ snd (getEntry (moduleInit 0) 0 "s1" uuidA) <> None.
Proof. split; [reflexivity | discriminate]. Qed.

(** C2, amended: [getEntry] on a key absent from the map leaves the
    store alone and returns the first sample entry; on a key whose entry
    has expired it returns [null]; the two outcomes differ. *)
Theorem getEntry_absent_versus_expired
    st now sessionId entryId st' now' sessionId' entryId' e :
  JsMap.get (mockEntries st) (getEntryKey sessionId entryId) = None ->
  JsMap.get (mockEntries st') (getEntryKey sessionId' entryId') = Some e ->
  Entry.expiresAt e <= now' ->
  getEntry st now sessionId entryId = (st, hd_error (sampleEntries st))
  /\ option_map Entry.id (snd (getEntry st now sessionId entryId))
     = Some "entry-1"%string
  /\ snd (getEntry st' now' sessionId' entryId') = None
  /\ snd (getEntry st now sessionId entryId)
     <> snd (getEntry st' now' sessionId' entryId').
Proof.
  intros Habs Hsome Hexp. unfold getEntry. rewrite Habs, Hsome.
  apply Z.leb_le in Hexp. rewrite Hexp. simpl.
  repeat split; auto. discriminate.
Qed.

Lemma getEntry_absent_versus_expired_witness :
  snd (getEntry (moduleInit 0) 2000 "s1" uuidA)
  <> snd (getEntry storeOneEntry 2000 "s1" uuidA).
Proof.
  apply (getEntry_absent_versus_expired
           (moduleInit 0) 2000 "s1" uuidA storeOneEntry 2000 "s1" uuidA
           (newEntry 1000 uuidA "hello" 1 None "m1"));
    [reflexivity | reflexivity | vm_compute; discriminate].
Defined.

(** ** Presence *)

Lemma filter_delete_rejected {V : Type} (f : string * V -> bool)
    (m : JsMap.t V) k v :
  JsMap.get m k = Some v -> f (k, v) = false ->
  filter f (JsMap.delete m k) = filter f m.
Proof.
  induction m as [|[k0 v0] m IH]; simpl; [discriminate|].
  destruct (String.eqb k k0) eqn:E.
  - apply String.eqb_eq in E. subst k0. intros H Hf.
    inversion H; subst. now rewrite Hf.
  - intros H Hf. simpl. now rewrite IH.
Qed.

Lemma stale_not_online interval now sessionId k m :
  stale interval now m ->
  isOnline sessionId now (getMemberTTL interval * 1000) (k, m) = false.
Proof.
  unfold stale, isOnline. simpl. intros H.
  apply Z.ltb_ge in H. rewrite H. apply andb_false_r.
Qed.

(** A stale record adds nothing to the count of the loop. *)
Lemma onlineCount_without_stale interval st now sessionId k m :
  JsMap.get (mockMembers st) k = Some m -> stale interval now m ->
  onlineCount interval st now sessionId
  = onlineCount interval (withoutMember st k) now sessionId.
Proof.
  intros Hget Hst. unfold onlineCount, withoutMember, JsMap.entries. simpl.
  erewrite filter_delete_rejected; eauto using stale_not_online.
Qed.

Lemma allStale_onlineCount interval st now sessionId :
  allStale interval now sessionId st = true ->
  onlineCount interval st now sessionId = 0.
Proof.
  unfold allStale, onlineCount, JsMap.entries.
  induction (mockMembers st) as [|[k m] l IH]; simpl; auto.
  intros H. apply andb_prop in H. destruct H as [H1 H2].
  unfold isOnline at 1. simpl.
  destruct (String.eqb (Member.sessionId m) sessionId); simpl in *.
  - apply Z.leb_le in H1. apply Z.ltb_ge in H1. rewrite H1. auto.
  - auto.
Qed.

(** C3, as stated, fails: whatever the refetch interval and however long
    after the two heartbeats, the count reported for [s1] is not 0. *)
Lemma getOnlineMemberCount_scenario_never_zero :
  ~ exists interval now,
      getOnlineMemberCount interval storeTwoMembers now "s1" = 0.
Proof.
  intros (interval & now & H). unfold getOnlineMemberCount in H. lia.
Qed.

(** C3, amended: a member record last seen [getMemberTTL] seconds ago or
    more is left out of the count of the loop, and
    [getOnlineMemberCount] returns the larger of 3 and that count; once
    every record of the session is that old it returns 3. *)
Theorem getOnlineMemberCount_excludes_stale
    interval st now sessionId k m :
  JsMap.get (mockMembers st) k = Some m ->
  stale interval now m ->
  getOnlineMemberCount interval st now sessionId
  = Z.max 3 (onlineCount interval (withoutMember st k) now sessionId)
  /\ (allStale interval now sessionId st = true ->
      getOnlineMemberCount interval st now sessionId = 3).
Proof.
  intros Hget Hst. unfold getOnlineMemberCount. split.
  - now rewrite (onlineCount_without_stale interval st now sessionId k m).
  - intros H. now rewrite allStale_onlineCount.
Qed.

Lemma getOnlineMemberCount_excludes_stale_witness :
  getOnlineMemberCount 5000 storeTwoMembers 15010 "s1" = 3.
Proof.
  apply (getOnlineMemberCount_excludes_stale
           5000 storeTwoMembers 15010 "s1" (getMemberKey "s1" "m1")
           (Member.mk "s1" "m1" 0));
    [reflexivity | vm_compute; discriminate | reflexivity].
Defined.

(** Right after the two heartbeats the loop counts both members, and the
    reported value is still 3. *)
Lemma getOnlineMemberCount_scenario_online :
  onlineCount 5000 storeTwoMembers 10 "s1" = 2
  /\ getOnlineMemberCount 5000 storeTwoMembers 10 "s1" = 3.
Proof. split; reflexivity. Qed.

(** ** Reachable stores *)

Lemma run_NoDup interval st tr :
  NoDup (JsMap.keys (mockEntries st)) ->
  NoDup (JsMap.keys (mockEntries (run interval st tr))).
Proof.
  revert st. induction tr as [|[this c] tr IH]; simpl; auto.
  intros st H. apply IH. now apply invoke_NoDup.
Qed.

Lemma init_NoDup interval t0 tr :
  NoDup (JsMap.keys (mockEntries (run interval (moduleInit t0) tr))).
Proof. apply run_NoDup. constructor. Qed.

(** ** Deletion *)

(** C4, as stated, fails: the entry of [storeOneEntry] expired at instant
    2000, it was never evicted, and deleting it afterwards returns true. *)
Lemma deleteEntry_expired_returns_true :
  exists e,
    JsMap.get (mockEntries storeOneEntry) (getEntryKey "s1" uuidA) = Some e
    /\ Entry.expiresAt e <= 5000
    /\ snd (deleteEntry storeOneEntry "s1" uuidA) = true.
Proof.
  exists (newEntry 1000 uuidA "hello" 1 None "m1").
  repeat split. vm_compute. discriminate.
Qed.

(** C4, amended: on any store the calls can produce, [deleteEntry]
    returns true exactly when the map holds an entry under the key, live
    or expired; the key is absent afterwards; and when it returns false
    the store is unchanged. *)
Theorem deleteEntry_reports_presence interval t0 tr sessionId entryId :
  let st := run interval (moduleInit t0) tr in
  let key := getEntryKey sessionId entryId in
  (snd (deleteEntry st sessionId entryId) = true
   <-> exists e, JsMap.get (mockEntries st) key = Some e)
  /\ JsMap.get (mockEntries (fst (deleteEntry st sessionId entryId))) key
     = None
  /\ (snd (deleteEntry st sessionId entryId) = false ->
      fst (deleteEntry st sessionId entryId) = st).
Proof.
  intros st key. unfold deleteEntry, JsMap.has. fold key. simpl.
  split; [|split].
  - destruct (JsMap.get (mockEntries st) key) as [e|].
    + split; eauto.
    + split; [discriminate | intros [e He]; discriminate].
  - apply get_delete_same. apply init_NoDup.
  - destruct (JsMap.get (mockEntries st) key) eqn:E; [discriminate|].
    intros _. rewrite delete_absent by assumption. now destruct st.
Qed.

(** ** Addition *)

(** C5, as stated, fails: an empty text with a time-to-live of 0 is
    stored as it is. *)
Lemma addEntry_stores_empty_text_zero_ttl :
  exists st e,
    addEntry (moduleInit 0) 1000 uuidA "" 0 None "s1" "m1" = Some (st, e)
    /\ JsMap.get (mockEntries st) (getEntryKey "s1" uuidA) = Some e
    /\ Entry.text e = ""%string
    /\ Entry.ttl e <= 0.
Proof.
  eexists. eexists. split; [reflexivity|].
  repeat split. vm_compute. discriminate.
Qed.

(** C5, amended: [addEntry] checks neither [text] nor [ttl], and reads
    [max_ttl] nowhere.  Whenever the expiry instant is a valid date, the
    entry is stored with the very text and time-to-live it was given,
    below, within or above the maximum, created at the clock reading and
    expiring [ttl] seconds, 1000 [ttl] milliseconds, after its creation.
    The one failure is the [RangeError] of an expiry instant that is no
    valid date: the call is rejected, and the store is left as it was. *)
Theorem addEntry_stores_ttl_unchecked
    (max_ttl interval : Z) (this : SessionRedisService)
    st now entryId text ttl imageUrl sessionId memberId :
  (validTimeValue (now + ttl * 1000) = true ->
   exists st' e,
     addEntry st now entryId text ttl imageUrl sessionId memberId
     = Some (st', e)
     /\ invoke interval this
          (AddEntry now entryId text ttl imageUrl sessionId memberId) st
        = (st', ResolvedEntry e)
     /\ JsMap.get (mockEntries st') (getEntryKey sessionId entryId) = Some e
     /\ Entry.id e = entryId
     /\ Entry.text e = text
     /\ Entry.ttl e = ttl
     /\ Entry.memberId e = memberId
     /\ Entry.createdAt e = now
     /\ Entry.expiresAt e = Entry.createdAt e + ttl * 1000
     /\ (max_ttl < ttl -> max_ttl < Entry.ttl e)
     /\ (ttl <= 0 -> Entry.ttl e <= 0 /\ Entry.expiresAt e <= now)
     /\ (text = ""%string -> Entry.text e = ""%string))
  /\ (validTimeValue (now + ttl * 1000) = false ->
      addEntry st now entryId text ttl imageUrl sessionId memberId = None
      /\ invoke interval this
           (AddEntry now entryId text ttl imageUrl sessionId memberId) st
         = (st, RejectedRangeError)).
Proof.
  split; intros Hv.
  - exists {| mockEntries :=
               JsMap.set (mockEntries st) (getEntryKey sessionId entryId)
                 (newEntry now entryId text ttl imageUrl memberId);
             mockMembers := mockMembers st;
             loadTime := loadTime st |}.
    exists (newEntry now entryId text ttl imageUrl memberId).
    assert (Hadd : addEntry st now entryId text ttl imageUrl sessionId memberId
                   = Some ({| mockEntries :=
                                JsMap.set (mockEntries st)
                                  (getEntryKey sessionId entryId)
                                  (newEntry now entryId text ttl imageUrl
                                     memberId);
                              mockMembers := mockMembers st;
                              loadTime := loadTime st |},
                           newEntry now entryId text ttl imageUrl memberId)).
    { unfold addEntry. now rewrite Hv. }
    split; [exact Hadd|].
    split; [cbn [invoke]; now rewrite Hadd|].
    split; [cbn [mockEntries]; apply get_set_same|].
    cbn [newEntry Entry.id Entry.text Entry.ttl Entry.memberId
         Entry.createdAt Entry.expiresAt].
    repeat split; auto; lia.
  - assert (Hadd : addEntry st now entryId text ttl imageUrl sessionId memberId
                   = None).
    { unfold addEntry. now rewrite Hv. }
    split; [exact Hadd|]. cbn [invoke]. now rewrite Hadd.
Qed.

Lemma addEntry_stores_ttl_unchecked_witness :
  (exists st' e,
     addEntry (moduleInit 0) 1000 uuidA "hello" 86401 None "s1" "m1"
     = Some (st', e)
     /\ JsMap.get (mockEntries st') (getEntryKey "s1" uuidA) = Some e
     /\ Entry.ttl e = 86401
     /\ Entry.expiresAt e = Entry.createdAt e + 86401 * 1000)
  /\ invoke 5000 serviceA
       (AddEntry 1000 uuidA "hello" 8640000000000 None "s1" "m1")
       (moduleInit 0)
     = (moduleInit 0, RejectedRangeError).
Proof.
  split.
  - destruct (addEntry_stores_ttl_unchecked
                86400 5000 serviceA (moduleInit 0) 1000 uuidA "hello" 86401
                None "s1" "m1") as [H _].
    destruct (H eq_refl)
      as (st' & e & Hadd & _ & Hget & _ & _ & Httl & _ & _ & Hexp & _).
    exists st', e. repeat split; assumption.
  - destruct (addEntry_stores_ttl_unchecked
                86400 5000 serviceA (moduleInit 0) 1000 uuidA "hello"
                8640000000000 None "s1" "m1") as [_ H].
    destruct (H eq_refl) as [_ Hinv]. exact Hinv.
Defined.

(** The other way out: an expiry instant that is no valid date makes the
    call throw, and nothing is stored. *)
Lemma addEntry_invalid_date st now entryId text ttl imageUrl sessionId memberId :
  validTimeValue (now + ttl * 1000) = false ->
  addEntry st now entryId text ttl imageUrl sessionId memberId = None.
Proof. intros H. unfold addEntry. now rewrite H. Qed.

(** C9: a [getEntry] on the identifier that [addEntry] returned, made
    before the expiry instant, returns the entry that was added, with the
    text, the member and the time-to-live of the call; its expiry instant
    is [ttl] seconds, 1000 [ttl] milliseconds, after its creation. *)
Theorem addEntry_then_getEntry
    st now now' entryId text ttl imageUrl sessionId memberId :
  0 < ttl ->
  validTimeValue (now + ttl * 1000) = true ->
  now <= now' < now + ttl * 1000 ->
  exists st' e,
    addEntry st now entryId text ttl imageUrl sessionId memberId
    = Some (st', e)
    /\ getEntry st' now' sessionId (Entry.id e) = (st', Some e)
    /\ Entry.text e = text
    /\ Entry.memberId e = memberId
    /\ Entry.ttl e = ttl
    /\ Entry.expiresAt e - Entry.createdAt e = ttl * 1000
    /\ (Entry.expiresAt e - Entry.createdAt e) / 1000 = ttl.
Proof.
  intros Hpos Hv Hnow. unfold addEntry. rewrite Hv.
  eexists. eexists. split; [reflexivity|].
  unfold getEntry. simpl. rewrite get_set_same. simpl.
  replace (now + ttl * 1000 <=? now') with false
    by (symmetry; apply Z.leb_gt; lia).
  repeat split; try lia.
  replace (now + ttl * 1000 - now) with (ttl * 1000) by lia.
  apply Z.div_mul. lia.
Qed.

Lemma addEntry_then_getEntry_witness :
  exists st' e,
    addEntry (moduleInit 0) 1000 uuidA "hello" 60 None "s1" "m1"
    = Some (st', e)
    /\ getEntry st' 1010 "s1" (Entry.id e) = (st', Some e)
    /\ Entry.text e = "hello"%string
    /\ Entry.memberId e = "m1"%string
    /\ Entry.ttl e = 60
    /\ Entry.expiresAt e - Entry.createdAt e = 60 * 1000
    /\ (Entry.expiresAt e - Entry.createdAt e) / 1000 = 60.
Proof.
  apply (addEntry_then_getEntry
           (moduleInit 0) 1000 1010 uuidA "hello" 60 None "s1" "m1");
    [lia | reflexivity | lia].
Defined.

(** The scenario of the specification: sixty-one seconds later the same
    lookup returns [null]. *)
Lemma addEntry_then_getEntry_expired :
  exists st' e,
    addEntry (moduleInit 0) 1000 uuidA "hello" 60 None "s1" "m1"
    = Some (st', e)
    /\ snd (getEntry st' (1000 + 61 * 1000) "s1" (Entry.id e)) = None.
Proof. eexists. eexists. split; reflexivity. Qed.

Lemma deleteEntry_reports_presence_witness :
  snd (deleteEntry storeOneEntry "s1" uuidA) = true
  /\ JsMap.get (mockEntries (fst (deleteEntry storeOneEntry "s1" uuidA)))
       (getEntryKey "s1" uuidA) = None
  /\ snd (deleteEntry storeOneEntry "s1" uuidB) = false.
Proof.
  pose proof (deleteEntry_reports_presence 5000 0
                [(serviceA, AddEntry 1000 uuidA "hello" 1 None "s1" "m1")]
                "s1" uuidA) as H.
  destruct H as (H1 & H2 & _).
  split; [|split].
  - apply H1. eexists. reflexivity.
  - exact H2.
  - reflexivity.
Defined.

(** ** Instances *)

(** C6, as stated, fails: an entry added through one instance changes
    what a different instance reads, and an instance constructed after
    that does not find the maps empty. *)
Lemma instances_share_the_maps :
  let add := AddEntry 1000 uuidA "hello" 60 None "s1" "m1" in
  let before := moduleInit 0 in
  let after := fst (invoke 5000 serviceA add before) in
  serviceA <> serviceB
  /\ snd (invoke 5000 serviceB (GetAllEntries 1010 "s1") after)
     <> snd (invoke 5000 serviceB (GetAllEntries 1010 "s1") before)
  /\ snd (invoke 5000 (newSessionRedisService 3) (GetEntry 1010 "s1" uuidA)
            after)
     = ResolvedLookup (Some (newEntry 1000 uuidA "hello" 60 None "m1")).
Proof.
  split; [discriminate|]. split; [|reflexivity].
  vm_compute. discriminate.
Qed.

(** C6, amended: the maps belong to the module, not to an instance.  A
    call has the same effect and the same result whichever instance it is
    made on, so an entry added through one instance is the one a lookup
    through any other instance returns; the maps are empty when the
    module has been loaded, and constructing an instance resets
    nothing. *)
Theorem instances_operate_on_module_maps
    interval thisA thisB st now now' entryId text ttl imageUrl
    sessionId memberId :
  validTimeValue (now + ttl * 1000) = true ->
  now' < now + ttl * 1000 ->
  (forall c, invoke interval thisA c st = invoke interval thisB c st)
  /\ (exists st' e,
        invoke interval thisA
          (AddEntry now entryId text ttl imageUrl sessionId memberId) st
        = (st', ResolvedEntry e)
        /\ invoke interval thisB (GetEntry now' sessionId entryId) st'
           = (st', ResolvedLookup (Some e)))
  /\ (forall t0, mockEntries (moduleInit t0) = JsMap.empty
                 /\ mockMembers (moduleInit t0) = JsMap.empty).
Proof.
  intros Hv Hnow. split; [reflexivity|]. split; [|now split].
  simpl. unfold addEntry. rewrite Hv.
  eexists. eexists. split; [reflexivity|].
  unfold getEntry. simpl. rewrite get_set_same. simpl.
  replace (now + ttl * 1000 <=? now') with false
    by (symmetry; apply Z.leb_gt; lia).
  reflexivity.
Qed.

Lemma instances_operate_on_module_maps_witness :
  exists st' e,
    invoke 5000 serviceA (AddEntry 1000 uuidA "hello" 60 None "s1" "m1")
      (moduleInit 0)
    = (st', ResolvedEntry e)
    /\ invoke 5000 serviceB (GetEntry 1010 "s1" uuidA) st'
       = (st', ResolvedLookup (Some e)).
Proof.
  apply (instances_operate_on_module_maps
           5000 serviceA serviceB (moduleInit 0) 1000 1010 uuidA
           "hello" 60 None "s1" "m1");
    [reflexivity | lia].
Defined.

(** ** Keys *)

(** On any store the calls can produce, every key is the key of its
    entry's own identifier under the session the entry was added to. *)
Lemma keys_carry_entry_id interval t0 tr :
  keyedById (run interval (moduleInit t0) tr).
Proof.
  intros k e H. apply init_provenance in H.
  destruct H as (sid & Hk & _). now exists sid.
Qed.

Lemma append_cancel_l (p a b : string) :
  (p ++ a = p ++ b)%string -> a = b.
Proof.
  induction p as [|c p IH]; simpl; auto.
  intros H. inversion H. auto.
Qed.

Lemma prefix_refl s : String.prefix s s = true.
Proof.
  induction s as [|c s IH]; simpl; auto.
  destruct (ascii_dec c c); [auto | congruence].
Qed.

(** Between sessions whose identifiers hold no colon, a key determines
    its session and its entry identifier. *)
Lemma getEntryKey_inj sessionId sessionId' entryId entryId' :
  colonFree sessionId = true -> colonFree sessionId' = true ->
  getEntryKey sessionId entryId = getEntryKey sessionId' entryId' ->
  sessionId = sessionId' /\ entryId = entryId'.
Proof.
  unfold getEntryKey. intros Hc Hc' H.
  change ("session:" ++ sessionId ++ ":entry:" ++ entryId)%string
    with ("session:" ++ (sessionId ++ String colon ("entry:" ++ entryId)))%string
    in H.
  change ("session:" ++ sessionId' ++ ":entry:" ++ entryId')%string
    with ("session:"
          ++ (sessionId' ++ String colon ("entry:" ++ entryId')))%string
    in H.
  apply append_cancel_l in H.
  assert (Hs : sessionId = sessionId').
  { eapply colonFree_prefix_eq; eauto. rewrite H. apply prefix_refl. }
  subst sessionId'. split; auto.
  apply append_cancel_l in H. inversion H.
  now apply (append_cancel_l "entry:").
Qed.

(** There the lookup does return the identifier it was asked for. *)
Lemma getEntry_found_id_colonFree interval t0 tr sessionId entryId e :
  forallb colonFree (addSessions tr) = true ->
  colonFree sessionId = true ->
  JsMap.get (mockEntries (run interval (moduleInit t0) tr))
    (getEntryKey sessionId entryId) = Some e ->
  Entry.id e = entryId.
Proof.
  intros Hadds Hc Hget. apply get_in in Hget.
  apply init_provenance in Hget. destruct Hget as (sid' & Hk & Hadd).
  apply getEntryKey_inj in Hk; auto.
  - now destruct Hk.
  - rewrite forallb_forall in Hadds. apply Hadds.
    eapply addedUnder_session; eauto.
Qed.

(** C10: the key of one session and identifier is also the key of
    another pair.  An entry added to session [room:entry:x] under the
    identifier [uuidA] is what [getEntry] returns for session [room] and
    identifier [x:entry:uuidA]: the identifier of the returned entry is
    not the one asked for. *)
Theorem getEntry_returns_another_id :
  let asked := ("x:entry:" ++ uuidA)%string in
  exists st e,
    addEntry (moduleInit 0) 1000 uuidA "hello" 60 None "room:entry:x" "m1"
    = Some (st, e)
    /\ keyedById st
    /\ JsMap.get (mockEntries st) (getEntryKey "room" asked) = Some e
    /\ snd (getEntry st 1010 "room" asked) = Some e
    /\ Entry.id e = uuidA
    /\ Entry.id e <> asked.
Proof.
  eexists. eexists. split; [reflexivity|].
  split; [|repeat split; discriminate].
  intros k e [H|[]]. inversion H; subst. now exists "room:entry:x"%string.
Qed.

(** ** The result of [getAllEntries] *)

Lemma sessionEntries_in st now sessionId e :
  In e (sessionEntries st now sessionId) ->
  exists k,
    In (k, e) (mockEntries st)
    /\ startsWith k ("session:" ++ sessionId ++ ":entry:")%string = true
    /\ now < Entry.expiresAt e.
Proof.
  unfold sessionEntries, JsMap.entries. intros H.
  apply in_map_iff in H. destruct H as [[k e'] [He H]]. simpl in He. subst e'.
  apply filter_In in H. destruct H as [Hin Hlive].
  unfold isSessionLive in Hlive. simpl in Hlive.
  apply andb_prop in Hlive. destruct Hlive as [Hp Hexp].
  apply Z.ltb_lt in Hexp. eauto.
Qed.

(** C7, as stated, fails: on the freshly loaded module the result for
    [s1] holds a sample entry, which no call added to any session. *)
Lemma getAllEntries_returns_entry_never_added :
  exists e,
    In e (getAllEntries (run 5000 (moduleInit 0) []) 0 "s1")
    /\ ~ addedUnder [] "s1" e.
Proof.
  eexists. split; [left; reflexivity|].
  intros (this & now & eid & txt & ttl & img & mid & [] & _).
Qed.

(** C7, amended: with session identifiers that hold no colon, whenever
    the scan finds a live entry of the session, every entry of the result
    was added to that very session by an [addEntry] of the trace and has
    not expired; when it finds none, the result is the three samples.
    Either way the result is ordered by [createdAt], newest first, and
    entries created at the same instant keep the iteration order of the
    map, which is the order of insertion. *)
Theorem getAllEntries_session_and_order interval t0 tr now sessionId :
  forallb colonFree (addSessions tr) = true ->
  colonFree sessionId = true ->
  let st := run interval (moduleInit t0) tr in
  let found := sessionEntries st now sessionId in
  let result := getAllEntries st now sessionId in
  (found <> [] ->
   forall e, In e result ->
     addedUnder tr sessionId e /\ now < Entry.expiresAt e)
  /\ (found = [] -> result = sampleEntries st)
  /\ newestFirst result
  /\ (forall c,
        createdAtInstant c result
        = createdAtInstant c
            (match found with [] => sampleEntries st | _ => found end)).
Proof.
  intros Hadds Hsid st found result.
  assert (Hres : result
                 = Array_sort compareCreatedAtDesc
                     (match found with [] => sampleEntries st | _ => found end)).
  { unfold result, getAllEntries. fold found. now destruct found. }
  split; [|split; [|split]].
  - intros Hne e Hin. rewrite Hres in Hin. apply Array_sort_in in Hin.
    destruct found as [|e0 found'] eqn:Hf; [congruence|].
    rewrite <- Hf in Hin. unfold found in Hin.
    apply sessionEntries_in in Hin. destruct Hin as (k & Hin & Hp & Hexp).
    split; auto.
    apply init_provenance in Hin. destruct Hin as (sid' & Hk & Hadd).
    assert (Hc : colonFree sid' = true).
    { rewrite forallb_forall in Hadds. apply Hadds.
      eapply addedUnder_session; eauto. }
    subst k. apply startsWith_session_inv in Hp; auto. now subst sid'.
  - intros Hf. rewrite Hres, Hf. apply sampleEntries_sorted.
  - rewrite Hres. apply Array_sort_newestFirst.
  - intros c. rewrite Hres. apply Array_sort_stable.
Qed.

Lemma getAllEntries_session_and_order_witness :
  let tr :=
    [ (serviceA, AddEntry 1000 uuidA "first" 60 None "s1" "m1");
      (serviceA, AddEntry 1000 uuidB "second" 60 None "s1" "m2") ] in
  map Entry.text (getAllEntries (run 5000 (moduleInit 0) tr) 1010 "s1")
  = ["first"; "second"]%string
  /\ forall e,
       In e (getAllEntries (run 5000 (moduleInit 0) tr) 1010 "s1") ->
       addedUnder tr "s1" e /\ 1010 < Entry.expiresAt e.
Proof.
  intros tr. split; [reflexivity|].
  destruct (getAllEntries_session_and_order 5000 0 tr 1010 "s1")
    as (H & _); [reflexivity | reflexivity |].
  apply H. discriminate.
Defined.

(** The insertion order behind the iteration order: setting a key that
    the map does not hold puts it last. *)
Lemma addEntry_appends st now entryId text ttl imageUrl sessionId memberId :
  JsMap.get (mockEntries st) (getEntryKey sessionId entryId) = None ->
  validTimeValue (now + ttl * 1000) = true ->
  exists st' e,
    addEntry st now entryId text ttl imageUrl sessionId memberId
    = Some (st', e)
    /\ JsMap.entries (mockEntries st')
       = JsMap.entries (mockEntries st) ++ [(getEntryKey sessionId entryId, e)].
Proof.
  intros Habs Hv. unfold addEntry. rewrite Hv.
  eexists. eexists. split; [reflexivity|]. simpl.
  now apply set_absent_appends.
Qed.

(** With a colon in a session identifier the prefix of one session
    matches the keys of another: the entry added to [room:entry:x] is in
    the result for [room]. *)
Lemma getAllEntries_returns_other_session :
  let tr :=
    [ (serviceA, AddEntry 1000 uuidA "hello" 60 None "room:entry:x" "m1") ] in
  getAllEntries (run 5000 (moduleInit 0) tr) 1010 "room"
  = [newEntry 1000 uuidA "hello" 60 None "m1"].
Proof. reflexivity. Qed.

(** ** Eviction on lookup *)

Lemma drawnIds_app tr1 tr2 :
  drawnIds (tr1 ++ tr2) = drawnIds tr1 ++ drawnIds tr2.
Proof.
  induction tr1 as [|[this c] tr1 IH]; simpl; auto.
  destruct c; simpl; auto. now rewrite IH.
Qed.

Section IdFacts.
Variable interval : Z.

Lemma invoke_idsOk ids this c st :
  idsOk ids st ->
  (forall u, In u (drawnIds [(this, c)]) -> ~ In u ids) ->
  idsOk (ids ++ drawnIds [(this, c)]) (fst (invoke interval this c st)).
Proof.
  intros (Hnd & Hin & Huniq) Hfresh. split; [|split].
  - now apply invoke_NoDup.
  - intros k e H. apply invoke_entries in H. apply in_or_app.
    destruct H as [H|(now & eid & txt & ttl & img & sid & mid
                      & -> & _ & -> & ->)].
    + left. eauto.
    + right. simpl. auto.
  - intros k k' e e' H H' Hid.
    apply invoke_entries in H. apply invoke_entries in H'.
    destruct H as [H|(now & eid & txt & ttl & img & sid & mid
                      & Hc & _ & Hk & He)];
      destruct H' as [H'|(now' & eid' & txt' & ttl' & img' & sid' & mid'
                          & Hc' & _ & Hk' & He')].
    + eauto.
    + exfalso. subst c e'. simpl in Hid, Hfresh.
      apply (Hfresh eid'); auto. rewrite <- Hid. eauto.
    + exfalso. subst c e. simpl in Hid, Hfresh.
      apply (Hfresh eid); auto. rewrite Hid. eauto.
    + rewrite Hc in Hc'. inversion Hc'; subst. reflexivity.
Qed.

Lemma run_idsOk ids st tr :
  idsOk ids st ->
  NoDup (ids ++ drawnIds tr) ->
  idsOk (ids ++ drawnIds tr) (run interval st tr).
Proof.
  revert ids st. induction tr as [|[this c] tr IH]; intros ids st Hok Hnd.
  - simpl. now rewrite app_nil_r.
  - change ((this, c) :: tr) with ([(this, c)] ++ tr) in *.
    rewrite drawnIds_app, app_assoc in *. rewrite run_app.
    apply IH; auto. simpl run.
    apply invoke_idsOk; auto.
    intros u Hu Hin.
    apply NoDup_app_remove_r in Hnd.
    revert u Hu Hin. clear -Hnd.
    induction ids as [|x ids IH]; simpl in *; [tauto|].
    inversion Hnd as [|? ? Hx Hrest]; subst.
    intros u Hu [->|Hin]; [|eauto].
    apply Hx. apply in_or_app. now right.
Qed.

Lemma invoke_idAbsent u this c st :
  idAbsent u st ->
  ~ In u (drawnIds [(this, c)]) ->
  idAbsent u (fst (invoke interval this c st)).
Proof.
  intros Habs Hnot k e H. apply invoke_entries in H.
  destruct H as [H|(now & eid & txt & ttl & img & sid & mid
                    & -> & _ & -> & ->)].
  - eauto.
  - simpl in *. intros ->. tauto.
Qed.

Lemma run_idAbsent u st tr :
  idAbsent u st -> ~ In u (drawnIds tr) -> idAbsent u (run interval st tr).
Proof.
  revert st. induction tr as [|[this c] tr IH]; intros st Habs Hnot; auto.
  change ((this, c) :: tr) with ([(this, c)] ++ tr) in *.
  rewrite drawnIds_app in Hnot. rewrite run_app. apply IH.
  - simpl run. apply invoke_idAbsent; auto.
    intros H. apply Hnot. apply in_or_app. now left.
  - intros H. apply Hnot. apply in_or_app. now right.
Qed.

(** Taking the key of an identifier out leaves no entry with that
    identifier. *)
Lemma delete_idAbsent ids st k e :
  idsOk ids st ->
  In (k, e) (mockEntries st) ->
  forall k' e', In (k', e') (JsMap.delete (mockEntries st) k) ->
    Entry.id e' <> Entry.id e.
Proof.
  intros (Hnd & _ & Huniq) Hin k' e' Hin' Hid.
  assert (k' = k) by (eapply Huniq; eauto using in_delete). subst k'.
  apply (delete_removes_key (mockEntries st) k Hnd).
  unfold JsMap.keys. apply in_map_iff. now exists (k, e').
Qed.
End IdFacts.

(** C8: a lookup of a stored entry at or after its expiry instant takes
    the entry out of the map and returns [null], and whatever calls
    follow, no [getAllEntries] result holds that entry again. *)
Theorem getEntry_evicts_expired
    interval t0 tr1 tr2 now sessionId entryId e :
  freshUuids (tr1 ++ tr2) = true ->
  let st := run interval (moduleInit t0) tr1 in
  JsMap.get (mockEntries st) (getEntryKey sessionId entryId) = Some e ->
  Entry.expiresAt e <= now ->
  let st' := fst (getEntry st now sessionId entryId) in
  snd (getEntry st now sessionId entryId) = None
  /\ JsMap.get (mockEntries st') (getEntryKey sessionId entryId) = None
  /\ forall now' sessionId',
       ~ In e (getAllEntries (run interval st' tr2) now' sessionId').
Proof.
  intros Hfresh st Hget Hexp st'.
  unfold freshUuids in Hfresh. rewrite drawnIds_app in Hfresh.
  apply andb_prop in Hfresh. destruct Hfresh as [Huuid Hdist].
  apply distinct_NoDup in Hdist. rewrite forallb_forall in Huuid.
  assert (Hok : idsOk (drawnIds tr1) st).
  { apply (run_idsOk interval [] (moduleInit t0) tr1).
    - split; [constructor | split; simpl; tauto].
    - simpl. eapply NoDup_app_remove_r; eauto. }
  assert (Hin : In (getEntryKey sessionId entryId, e) (mockEntries st))
    by now apply get_in.
  assert (Hdrawn : In (Entry.id e) (drawnIds tr1))
    by (destruct Hok as (_ & H & _); eauto).
  assert (Hst' : mockEntries st'
                 = JsMap.delete (mockEntries st)
                     (getEntryKey sessionId entryId)).
  { unfold st', getEntry. rewrite Hget.
    apply Z.leb_le in Hexp. now rewrite Hexp. }
  split; [|split].
  - unfold getEntry. rewrite Hget. apply Z.leb_le in Hexp. now rewrite Hexp.
  - rewrite Hst'. apply get_delete_same. now destruct Hok.
  - intros now' sid' Hres.
    assert (Habs : idAbsent (Entry.id e) (run interval st' tr2)).
    { apply run_idAbsent.
      - intros k' e' H'. rewrite Hst' in H'.
        eapply delete_idAbsent; eauto.
      - intros H2. revert Hdrawn H2. clear -Hdist.
        induction (drawnIds tr1) as [|x l IH]; simpl in *; [tauto|].
        inversion Hdist as [|? ? Hx Hrest]; subst.
        intros [->|H1] H2; [|eauto].
        apply Hx. apply in_or_app. now right. }
    unfold getAllEntries in Hres.
    destruct (List.length (sessionEntries (run interval st' tr2) now' sid')
              =? 0)%nat.
    + apply Array_sort_in in Hres. apply uuid_not_sample in Hres.
      rewrite Huuid in Hres; [discriminate|]. apply in_or_app. now left.
    + apply Array_sort_in in Hres. apply sessionEntries_in in Hres.
      destruct Hres as (k & Hk & _). now apply (Habs k e).
Qed.

Lemma getEntry_evicts_expired_witness :
  let tr1 := [ (serviceA, AddEntry 1000 uuidA "hello" 1 None "s1" "m1") ] in
  let tr2 := [ (serviceB, AddEntry 3000 uuidB "again" 60 None "s1" "m1") ] in
  let st := run 5000 (moduleInit 0) tr1 in
  let st' := fst (getEntry st 2000 "s1" uuidA) in
  snd (getEntry st 2000 "s1" uuidA) = None
  /\ JsMap.get (mockEntries st') (getEntryKey "s1" uuidA) = None
  /\ forall now' sessionId',
       ~ In (newEntry 1000 uuidA "hello" 1 None "m1")
            (getAllEntries (run 5000 st' tr2) now' sessionId').
Proof.
  intros tr1 tr2.
  apply (getEntry_evicts_expired 5000 0 tr1 tr2 2000 "s1" uuidA
           (newEntry 1000 uuidA "hello" 1 None "m1"));
    [reflexivity | reflexivity | vm_compute; discriminate].
Defined.

(** * Further properties of the service *)

(** ** More facts about maps *)

Section JsMapMoreFacts.
Context {V : Type}.
Implicit Types (m : JsMap.t V) (k : string) (v : V).

Lemma set_in m k v : In (k, v) (JsMap.set m k v).
Proof.
  induction m as [|[k0 v0] m IH]; simpl; auto.
  destruct (String.eqb k k0) eqn:E; simpl; auto.
  apply String.eqb_eq in E. subst. auto.
Qed.

Lemma set_set m k v v' : JsMap.set (JsMap.set m k v) k v' = JsMap.set m k v'.
Proof.
  induction m as [|[k0 v0] m IH]; simpl.
  - now rewrite String.eqb_refl.
  - destruct (String.eqb k k0) eqn:E; simpl; rewrite E; auto.
    now rewrite IH.
Qed.

Lemma get_delete_other m k k' :
  k <> k' -> JsMap.get (JsMap.delete m k) k' = JsMap.get m k'.
Proof.
  intros Hne. induction m as [|[k0 v0] m IH]; simpl; auto.
  destruct (String.eqb k k0) eqn:E; simpl.
  - apply String.eqb_eq in E. subst k0.
    destruct (String.eqb k' k) eqn:E'; auto.
    apply String.eqb_eq in E'. congruence.
  - destruct (String.eqb k' k0); auto.
Qed.

Lemma delete_appended m k v :
  JsMap.get m k = None -> JsMap.delete (m ++ [(k, v)]) k = m.
Proof.
  induction m as [|[k0 v0] m IH]; simpl.
  - now rewrite String.eqb_refl.
  - destruct (String.eqb k k0); [discriminate|].
    intros H. now rewrite IH.
Qed.

Lemma set_length m k v :
  List.length (JsMap.set m k v)
  = (List.length m + (if JsMap.has m k then 0 else 1))%nat.
Proof.
  unfold JsMap.has.
  induction m as [|[k0 v0] m IH]; simpl; auto.
  destruct (String.eqb k k0); simpl; [lia|].
  rewrite IH. destruct (JsMap.get m k); lia.
Qed.

Lemma delete_length m k :
  (List.length (JsMap.delete m k) <= List.length m)%nat.
Proof.
  induction m as [|[k0 v0] m IH]; simpl; auto.
  destruct (String.eqb k k0); simpl; lia.
Qed.

Lemma get_set_some m k v k' :
  JsMap.get m k' <> None -> JsMap.get (JsMap.set m k v) k' <> None.
Proof.
  intros H. destruct (String.eqb k k') eqn:E.
  - apply String.eqb_eq in E. subst. rewrite get_set_same. discriminate.
  - apply String.eqb_neq in E. now rewrite get_set_other.
Qed.
End JsMapMoreFacts.

(** ** The scan of [getAllEntries] *)

Lemma sessionEntries_complete st now sessionId k e :
  In (k, e) (mockEntries st) ->
  startsWith k ("session:" ++ sessionId ++ ":entry:")%string = true ->
  now < Entry.expiresAt e ->
  In e (sessionEntries st now sessionId).
Proof.
  intros Hin Hp Hlive. unfold sessionEntries, JsMap.entries.
  apply in_map_iff. exists (k, e). split; auto.
  apply filter_In. split; auto.
  unfold isSessionLive. cbn [fst snd]. rewrite Hp. now apply Z.ltb_lt.
Qed.

Lemma getAllEntries_found st now sessionId :
  sessionEntries st now sessionId <> [] ->
  getAllEntries st now sessionId
  = Array_sort compareCreatedAtDesc (sessionEntries st now sessionId).
Proof.
  intros H. unfold getAllEntries.
  destruct (sessionEntries st now sessionId); [congruence | reflexivity].
Qed.

(** X1: an entry that [addEntry] returned is in the result of
    [getAllEntries] for its session at any instant before its expiry. *)
Theorem addEntry_visible_in_getAllEntries
    st now now' entryId text ttl imageUrl sessionId memberId :
  validTimeValue (now + ttl * 1000) = true ->
  now' < now + ttl * 1000 ->
  exists st' e,
    addEntry st now entryId text ttl imageUrl sessionId memberId
    = Some (st', e)
    /\ In e (getAllEntries st' now' sessionId)
    /\ forall e', In e' (getAllEntries st' now' sessionId) ->
         now' < Entry.expiresAt e'.
Proof.
  intros Hv Hlive. unfold addEntry. rewrite Hv.
  eexists. eexists. split; [reflexivity|].
  match goal with |- In ?e (getAllEntries ?s _ _) /\ _ =>
    assert (Hin : In e (sessionEntries s now' sessionId)) end.
  { eapply sessionEntries_complete.
    - simpl. apply set_in.
    - apply startsWith_own_session.
    - simpl. lia. }
  rewrite getAllEntries_found by (intros E; rewrite E in Hin; destruct Hin).
  split.
  - now apply Array_sort_in.
  - intros e' H'. apply Array_sort_in in H'. apply sessionEntries_in in H'.
    now destruct H' as (k & _ & _ & H').
Qed.

Lemma addEntry_visible_in_getAllEntries_witness :
  exists st' e,
    addEntry storeOneEntry 1500 uuidB "second" 60 None "s1" "m2"
    = Some (st', e)
    /\ In e (getAllEntries st' 2500 "s1")
    /\ forall e', In e' (getAllEntries st' 2500 "s1") ->
         2500 < Entry.expiresAt e'.
Proof.
  apply (addEntry_visible_in_getAllEntries
           storeOneEntry 1500 2500 uuidB "second" 60 None "s1" "m2");
    [reflexivity | lia].
Defined.

(** X2: [getAllEntries] never returns an empty array: it has as many
    elements as the scan found live entries, and three when the scan
    found none. *)
Theorem getAllEntries_never_empty st now sessionId :
  getAllEntries st now sessionId <> []
  /\ List.length (getAllEntries st now sessionId)
     = match sessionEntries st now sessionId with
       | [] => 3%nat
       | found => List.length found
       end.
Proof.
  assert (Hlen : List.length (getAllEntries st now sessionId)
                 = match sessionEntries st now sessionId with
                   | [] => 3%nat
                   | found => List.length found
                   end).
  { unfold getAllEntries.
    destruct (sessionEntries st now sessionId) as [|e l]; simpl Nat.eqb;
      cbv iota; now rewrite Array_sort_length. }
  split; auto.
  intros E. rewrite E in Hlen. simpl in Hlen.
  destruct (sessionEntries st now sessionId); discriminate.
Qed.

(** X3: when the scan finds a live entry, the result of [getAllEntries]
    is a rearrangement of exactly the stored entries whose key starts
    with the prefix of the session and whose expiry instant lies after
    [now]. *)
Theorem getAllEntries_exactly_live_prefixed st now sessionId e :
  sessionEntries st now sessionId <> [] ->
  Permutation (getAllEntries st now sessionId)
    (sessionEntries st now sessionId)
  /\ (In e (getAllEntries st now sessionId)
      <-> exists k,
            In (k, e) (mockEntries st)
            /\ startsWith k ("session:" ++ sessionId ++ ":entry:")%string
               = true
            /\ now < Entry.expiresAt e).
Proof.
  intros H. rewrite getAllEntries_found by assumption. split.
  - apply Array_sort_perm.
  - rewrite Array_sort_in. split.
    + apply sessionEntries_in.
    + intros (k & Hin & Hp & Hl). eapply sessionEntries_complete; eauto.
Qed.

Lemma getAllEntries_exactly_live_prefixed_witness :
  In (newEntry 1000 uuidA "hello" 1 None "m1")
     (getAllEntries storeOneEntry 1500 "s1")
  <-> exists k,
        In (k, newEntry 1000 uuidA "hello" 1 None "m1")
           (mockEntries storeOneEntry)
        /\ startsWith k "session:s1:entry:" = true
        /\ 1500 < Entry.expiresAt (newEntry 1000 uuidA "hello" 1 None "m1").
Proof.
  apply (getAllEntries_exactly_live_prefixed storeOneEntry 1500 "s1").
  discriminate.
Defined.

(** ** What the entry map holds *)

Lemma spreadImageUrl_not_empty imageUrl :
  spreadImageUrl imageUrl <> Some ""%string.
Proof.
  destruct imageUrl as [u|]; simpl; [|discriminate].
  destruct (String.eqb u "") eqn:E; [discriminate|].
  apply String.eqb_neq in E. congruence.
Qed.

(** X4: on any store the calls can produce, every stored entry expires
    exactly [ttl] seconds after its creation, at a valid date, carries no
    empty [imageUrl], and sits under the key of its own identifier. *)
Theorem stored_entries_wellformed interval t0 tr k e :
  In (k, e) (mockEntries (run interval (moduleInit t0) tr)) ->
  Entry.expiresAt e = Entry.createdAt e + Entry.ttl e * 1000
  /\ validTimeValue (Entry.expiresAt e) = true
  /\ Entry.imageUrl e <> Some ""%string
  /\ exists sessionId, k = getEntryKey sessionId (Entry.id e).
Proof.
  intros H. apply init_provenance in H.
  destruct H as (sid & Hk & this & now & eid & txt & ttl & img & mid
                 & _ & Hv & ->).
  simpl. repeat split; auto.
  - apply spreadImageUrl_not_empty.
  - now exists sid.
Qed.

Lemma stored_entries_wellformed_witness :
  let e := newEntry 1000 uuidA "hello" 60 (Some ""%string) "m1" in
  Entry.expiresAt e = Entry.createdAt e + Entry.ttl e * 1000
  /\ validTimeValue (Entry.expiresAt e) = true
  /\ Entry.imageUrl e <> Some ""%string
  /\ exists sessionId, getEntryKey "s1" uuidA = getEntryKey sessionId (Entry.id e).
Proof.
  apply (stored_entries_wellformed 5000 0
           [(serviceA,
             AddEntry 1000 uuidA "hello" 60 (Some ""%string) "s1" "m1")]
           (getEntryKey "s1" uuidA)).
  left. reflexivity.
Defined.

(** ** Lookups and deletions in sequence *)

(** X5: the [null] of an expired entry is reported once.  After the
    lookup that evicted it, a lookup of the same key, at any instant,
    returns the first sample entry and changes nothing. *)
Theorem getEntry_after_eviction_returns_sample
    interval t0 tr now now' sessionId entryId e :
  let st := run interval (moduleInit t0) tr in
  JsMap.get (mockEntries st) (getEntryKey sessionId entryId) = Some e ->
  Entry.expiresAt e <= now ->
  let st1 := fst (getEntry st now sessionId entryId) in
  snd (getEntry st now sessionId entryId) = None
  /\ getEntry st1 now' sessionId entryId = (st1, hd_error (sampleEntries st))
  /\ option_map Entry.id (snd (getEntry st1 now' sessionId entryId))
     = Some "entry-1"%string.
Proof.
  intros st Hget Hexp st1.
  assert (Hst1 : st1 = {| mockEntries :=
                            JsMap.delete (mockEntries st)
                              (getEntryKey sessionId entryId);
                          mockMembers := mockMembers st;
                          loadTime := loadTime st |}).
  { unfold st1, getEntry. rewrite Hget.
    apply Z.leb_le in Hexp. now rewrite Hexp. }
  assert (Hnone : JsMap.get (mockEntries st1)
                    (getEntryKey sessionId entryId) = None).
  { rewrite Hst1. simpl. apply get_delete_same. apply init_NoDup. }
  split; [|split].
  - unfold getEntry. rewrite Hget. apply Z.leb_le in Hexp. now rewrite Hexp.
  - unfold getEntry at 1. rewrite Hnone. now rewrite Hst1.
  - unfold getEntry at 1. rewrite Hnone. reflexivity.
Qed.

Lemma getEntry_after_eviction_returns_sample_witness :
  let st1 := fst (getEntry storeOneEntry 2000 "s1" uuidA) in
  snd (getEntry storeOneEntry 2000 "s1" uuidA) = None
  /\ option_map Entry.id (snd (getEntry st1 2001 "s1" uuidA))
     = Some "entry-1"%string.
Proof.
  destruct (getEntry_after_eviction_returns_sample 5000 0
              [(serviceA, AddEntry 1000 uuidA "hello" 1 None "s1" "m1")]
              2000 2001 "s1" uuidA
              (newEntry 1000 uuidA "hello" 1 None "m1"))
    as (H1 & _ & H3);
    [reflexivity | vm_compute; discriminate |].
  split; [exact H1 | exact H3].
Defined.

(** X6: deleting the same key a second time returns false and leaves
    the store as the first deletion left it. *)
Theorem deleteEntry_twice interval t0 tr sessionId entryId :
  let st := run interval (moduleInit t0) tr in
  let st1 := fst (deleteEntry st sessionId entryId) in
  deleteEntry st1 sessionId entryId = (st1, false).
Proof.
  intros st st1. unfold st1, deleteEntry, JsMap.has. simpl.
  rewrite get_delete_same by apply init_NoDup.
  rewrite delete_absent
    by (apply get_delete_same; apply init_NoDup).
  reflexivity.
Qed.

(** X7: adding an entry under a key that the map does not hold and
    deleting it again gives back the store as it was, and the deletion
    returns true. *)
Theorem addEntry_then_deleteEntry
    st now entryId text ttl imageUrl sessionId memberId :
  JsMap.get (mockEntries st) (getEntryKey sessionId entryId) = None ->
  validTimeValue (now + ttl * 1000) = true ->
  exists st1 e,
    addEntry st now entryId text ttl imageUrl sessionId memberId
    = Some (st1, e)
    /\ deleteEntry st1 sessionId entryId = (st, true).
Proof.
  intros Habs Hv. unfold addEntry. rewrite Hv.
  eexists. eexists. split; [reflexivity|].
  unfold deleteEntry, JsMap.has. simpl.
  rewrite get_set_same.
  rewrite set_absent_appends by assumption.
  rewrite delete_appended by assumption.
  now destruct st.
Qed.

Lemma addEntry_then_deleteEntry_witness :
  exists st1 e,
    addEntry storeOneEntry 1500 uuidB "second" 60 None "s1" "m2"
    = Some (st1, e)
    /\ deleteEntry st1 "s1" uuidB = (storeOneEntry, true).
Proof.
  apply (addEntry_then_deleteEntry
           storeOneEntry 1500 uuidB "second" 60 None "s1" "m2");
    reflexivity.
Defined.

(** ** What a call leaves alone *)

Section FrameFacts.
Variable interval : Z.

Lemma invoke_loadTime this c st :
  loadTime (fst (invoke interval this c st)) = loadTime st.
Proof.
  destruct c as [now sid mid|now sid|now eid txt ttl img sid mid
                |now sid|now sid eid|sid eid]; simpl; auto.
  - unfold addEntry. now destruct (validTimeValue (now + ttl * 1000)).
  - unfold getEntry.
    destruct (JsMap.get (mockEntries st) (getEntryKey sid eid)) as [e0|];
      simpl; auto.
    now destruct (Entry.expiresAt e0 <=? now).
Qed.

Lemma invoke_members this c st :
  isTrack c = false ->
  mockMembers (fst (invoke interval this c st)) = mockMembers st.
Proof.
  destruct c as [now sid mid|now sid|now eid txt ttl img sid mid
                |now sid|now sid eid|sid eid]; simpl; auto; try discriminate.
  - intros _. unfold addEntry.
    now destruct (validTimeValue (now + ttl * 1000)).
  - intros _. unfold getEntry.
    destruct (JsMap.get (mockEntries st) (getEntryKey sid eid)) as [e0|];
      simpl; auto.
    now destruct (Entry.expiresAt e0 <=? now).
Qed.

Lemma invoke_get_other this c st k :
  touchedKey c <> Some k ->
  JsMap.get (mockEntries (fst (invoke interval this c st))) k
  = JsMap.get (mockEntries st) k.
Proof.
  destruct c as [now sid mid|now sid|now eid txt ttl img sid mid
                |now sid|now sid eid|sid eid]; simpl; auto; intros Hk.
  - unfold addEntry.
    destruct (validTimeValue (now + ttl * 1000)); simpl; auto.
    apply get_set_other. congruence.
  - unfold getEntry.
    destruct (JsMap.get (mockEntries st) (getEntryKey sid eid)) as [e0|];
      simpl; auto.
    destruct (Entry.expiresAt e0 <=? now); simpl; auto.
    apply get_delete_other. congruence.
  - apply get_delete_other. congruence.
Qed.

Lemma invoke_entries_untouched this c st :
  touchedKey c = None ->
  mockEntries (fst (invoke interval this c st)) = mockEntries st.
Proof.
  destruct c; simpl; auto; discriminate.
Qed.
End FrameFacts.

(** X8: a sequence of calls none of which is [trackMember] leaves the
    member map as it was, so the member count of every session at every
    instant is what it was; a sequence of [trackMember],
    [getOnlineMemberCount] and [getAllEntries] calls leaves the entry map
    as it was: in particular [getAllEntries] evicts nothing. *)
Theorem run_frame interval st tr :
  (forallb (fun tc => negb (isTrack (snd tc))) tr = true ->
   mockMembers (run interval st tr) = mockMembers st
   /\ forall now sessionId,
        getOnlineMemberCount interval (run interval st tr) now sessionId
        = getOnlineMemberCount interval st now sessionId)
  /\ (forallb
        (fun tc => match touchedKey (snd tc) with None => true | _ => false end)
        tr = true ->
      mockEntries (run interval st tr) = mockEntries st).
Proof.
  split.
  - intros H.
    assert (Hm : mockMembers (run interval st tr) = mockMembers st).
    { revert st. induction tr as [|[this c] tr IH]; intros st; simpl; auto.
      simpl in H. apply andb_prop in H. destruct H as [Hc H].
      rewrite IH by assumption.
      apply invoke_members. now destruct (isTrack c). }
    split; auto. intros now sid.
    unfold getOnlineMemberCount, onlineCount. now rewrite Hm.
  - revert st. induction tr as [|[this c] tr IH]; intros st H; simpl; auto.
    simpl in H. apply andb_prop in H. destruct H as [Hc H].
    rewrite IH by assumption.
    apply invoke_entries_untouched. now destruct (touchedKey c).
Qed.

Lemma run_frame_witness :
  mockEntries
    (run 5000 storeOneEntry
       [ (serviceA, GetAllEntries 5000 "s1");
         (serviceB, TrackMember 5000 "s1" "m1") ])
  = mockEntries storeOneEntry
  /\ mockMembers
       (run 5000 storeTwoMembers
          [ (serviceA, GetEntry 5000 "s1" uuidA);
            (serviceB, DeleteEntry "s1" uuidA) ])
     = mockMembers storeTwoMembers.
Proof.
  split.
  - apply (run_frame 5000 storeOneEntry). reflexivity.
  - apply (run_frame 5000 storeTwoMembers). reflexivity.
Defined.

(** X9: a call writes the entry map under one key at most:
    [addEntry], [getEntry] and [deleteEntry] leave every other key with
    the entry it had, and the other calls leave every key. *)
Theorem invoke_touches_one_key interval this c st k :
  touchedKey c <> Some k ->
  JsMap.get (mockEntries (fst (invoke interval this c st))) k
  = JsMap.get (mockEntries st) k
  /\ loadTime (fst (invoke interval this c st)) = loadTime st.
Proof.
  intros H. split.
  - now apply invoke_get_other.
  - apply invoke_loadTime.
Qed.

Lemma invoke_touches_one_key_witness :
  JsMap.get
    (mockEntries
       (fst (invoke 5000 serviceA (DeleteEntry "s1" uuidB) storeOneEntry)))
    (getEntryKey "s1" uuidA)
  = JsMap.get (mockEntries storeOneEntry) (getEntryKey "s1" uuidA).
Proof.
  apply (invoke_touches_one_key 5000 serviceA (DeleteEntry "s1" uuidB)
           storeOneEntry (getEntryKey "s1" uuidA)).
  vm_compute. discriminate.
Defined.

(** ** Heartbeats *)

Lemma filter_in_length {A : Type} (f : A -> bool) (l : list A) x :
  In x l -> f x = true -> (1 <= List.length (filter f l))%nat.
Proof.
  intros Hin Hf.
  assert (H : In x (filter f l)) by (apply filter_In; auto).
  destruct (filter f l); [destruct H | simpl; lia].
Qed.

(** X10: right after a heartbeat, and for as long as less than
    [getMemberTTL] seconds have passed since, the loop of
    [getOnlineMemberCount] counts at least one member for the session,
    and the record of the member holds the instant of the heartbeat. *)
Theorem trackMember_then_online interval st now now' sessionId memberId :
  now' - now < getMemberTTL interval * 1000 ->
  1 <= onlineCount interval (trackMember st now sessionId memberId)
         now' sessionId
  /\ JsMap.get (mockMembers (trackMember st now sessionId memberId))
       (getMemberKey sessionId memberId)
     = Some (Member.mk sessionId memberId now).
Proof.
  intros Hw. split.
  - unfold onlineCount, JsMap.entries.
    apply (Nat2Z.inj_le 1). simpl mockMembers.
    eapply filter_in_length; [apply set_in|].
    unfold isOnline. cbn [snd Member.sessionId Member.lastSeen].
    rewrite String.eqb_refl. now apply Z.ltb_lt.
  - simpl. apply get_set_same.
Qed.

Lemma trackMember_then_online_witness :
  1 <= onlineCount 5000 (trackMember (moduleInit 0) 0 "s1" "m1") 14999 "s1".
Proof.
  apply (trackMember_then_online 5000 (moduleInit 0) 0 14999 "s1" "m1").
  vm_compute. reflexivity.
Defined.

(** X11: of two heartbeats of the same member the later one wins: the
    store is the one that the later heartbeat alone would have left, with
    one record for the member. *)
Theorem trackMember_last_wins st t1 t2 sessionId memberId :
  trackMember (trackMember st t1 sessionId memberId) t2 sessionId memberId
  = trackMember st t2 sessionId memberId.
Proof.
  unfold trackMember. simpl. now rewrite set_set.
Qed.

Lemma isOnline_later interval now now' sessionId kv :
  now <= now' ->
  isOnline sessionId now' (getMemberTTL interval * 1000) kv = true ->
  isOnline sessionId now (getMemberTTL interval * 1000) kv = true.
Proof.
  unfold isOnline. intros Hle H. apply andb_prop in H. destruct H as [H1 H2].
  rewrite H1. simpl. apply Z.ltb_lt in H2. apply Z.ltb_lt. lia.
Qed.

Lemma filter_length_mono {A : Type} (f g : A -> bool) (l : list A) :
  (forall x, f x = true -> g x = true) ->
  (List.length (filter f l) <= List.length (filter g l))%nat.
Proof.
  intros H. induction l as [|x l IH]; simpl; auto.
  destruct (f x) eqn:E.
  - rewrite (H x E). simpl. lia.
  - destruct (g x); simpl; lia.
Qed.

(** X12: with no heartbeat in between, the count of the loop can only go
    down as time passes; it never exceeds the number of records, and the
    value returned lies between 3 and the larger of 3 and that number. *)
Theorem onlineCount_decays interval st now now' sessionId :
  now <= now' ->
  onlineCount interval st now' sessionId
  <= onlineCount interval st now sessionId
  /\ 0 <= onlineCount interval st now sessionId
     <= Z.of_nat (List.length (mockMembers st))
  /\ 3 <= getOnlineMemberCount interval st now' sessionId
     <= getOnlineMemberCount interval st now sessionId
  /\ getOnlineMemberCount interval st now sessionId
     <= Z.max 3 (Z.of_nat (List.length (mockMembers st))).
Proof.
  intros Hle.
  assert (H1 : onlineCount interval st now' sessionId
               <= onlineCount interval st now sessionId).
  { unfold onlineCount. apply Nat2Z.inj_le. apply filter_length_mono.
    intros kv. now apply isOnline_later. }
  assert (H2 : 0 <= onlineCount interval st now sessionId
               <= Z.of_nat (List.length (mockMembers st))).
  { unfold onlineCount, JsMap.entries. split; [lia|].
    apply Nat2Z.inj_le. apply filter_length_le. }
  unfold getOnlineMemberCount. repeat split; lia.
Qed.

Lemma onlineCount_decays_witness :
  onlineCount 5000 storeTwoMembers 15005 "s1"
  <= onlineCount 5000 storeTwoMembers 10 "s1".
Proof.
  apply (onlineCount_decays 5000 storeTwoMembers 10 15005 "s1"). lia.
Defined.

Section MemberFacts.
Variable interval : Z.

Lemma invoke_members_in this c st k m :
  In (k, m) (mockMembers (fst (invoke interval this c st))) ->
  In (k, m) (mockMembers st)
  \/ (c = TrackMember (Member.lastSeen m) (Member.sessionId m)
            (Member.memberId m)
      /\ k = getMemberKey (Member.sessionId m) (Member.memberId m)).
Proof.
  destruct (isTrack c) eqn:E.
  - destruct c; try discriminate. simpl. intros H.
    apply in_set in H. destruct H as [[-> ->]|H]; auto.
  - rewrite invoke_members by assumption. auto.
Qed.

Lemma invoke_members_NoDup this c st :
  NoDup (JsMap.keys (mockMembers st)) ->
  NoDup (JsMap.keys (mockMembers (fst (invoke interval this c st)))).
Proof.
  intros H. destruct (isTrack c) eqn:E.
  - destruct c; try discriminate. simpl. now apply NoDup_keys_set.
  - now rewrite invoke_members.
Qed.

Lemma run_members_inv tr0 tr st :
  NoDup (JsMap.keys (mockMembers st)) ->
  (forall k m, In (k, m) (mockMembers st) ->
     k = getMemberKey (Member.sessionId m) (Member.memberId m)
     /\ trackedIn tr0 m) ->
  NoDup (JsMap.keys (mockMembers (run interval st tr)))
  /\ forall k m, In (k, m) (mockMembers (run interval st tr)) ->
       k = getMemberKey (Member.sessionId m) (Member.memberId m)
       /\ trackedIn (tr0 ++ tr) m.
Proof.
  revert tr0 st. induction tr as [|[this c] tr IH]; intros tr0 st Hnd H.
  - simpl. rewrite app_nil_r. auto.
  - simpl run.
    replace (tr0 ++ (this, c) :: tr) with ((tr0 ++ [(this, c)]) ++ tr)
      by (rewrite <- app_assoc; reflexivity).
    apply IH; [now apply invoke_members_NoDup|].
    intros k m Hin. apply invoke_members_in in Hin.
    destruct Hin as [Hin|[Hc Hk]].
    + destruct (H _ _ Hin) as [Hk [this' Ht]]. split; auto.
      exists this'. apply in_or_app. now left.
    + split; auto. exists this. apply in_or_app. right. left. now rewrite Hc.
Qed.

Lemma run_members_persist st tr k :
  JsMap.get (mockMembers st) k <> None ->
  JsMap.get (mockMembers (run interval st tr)) k <> None.
Proof.
  revert st. induction tr as [|[this c] tr IH]; intros st H; simpl; auto.
  apply IH. destruct (isTrack c) eqn:E.
  - destruct c; try discriminate. simpl. now apply get_set_some.
  - now rewrite invoke_members.
Qed.
End MemberFacts.

(** X13: on any store the calls can produce, the member map has one
    record per key, and every record sits under the key of its own
    session and member and holds the instant of a heartbeat that the
    trace made for that session and member. *)
Theorem member_records_wellformed interval t0 tr :
  let st := run interval (moduleInit t0) tr in
  NoDup (JsMap.keys (mockMembers st))
  /\ forall k m, In (k, m) (mockMembers st) ->
       k = getMemberKey (Member.sessionId m) (Member.memberId m)
       /\ trackedIn tr m.
Proof.
  apply (run_members_inv interval [] tr (moduleInit t0)).
  - constructor.
  - simpl. tauto.
Qed.

Lemma member_records_wellformed_witness :
  getMemberKey "s1" "m2"
  = getMemberKey (Member.sessionId (Member.mk "s1" "m2" 10))
      (Member.memberId (Member.mk "s1" "m2" 10))
  /\ trackedIn
       [ (serviceA, TrackMember 0 "s1" "m1");
         (serviceA, TrackMember 10 "s1" "m2") ]
       (Member.mk "s1" "m2" 10).
Proof.
  destruct (member_records_wellformed 5000 0
              [ (serviceA, TrackMember 0 "s1" "m1");
                (serviceA, TrackMember 10 "s1" "m2") ]) as [_ H].
  apply H. right. left. reflexivity.
Defined.

(** X14: no call takes a member record out: a key that the member map
    holds is still held after any sequence of calls. *)
Theorem member_records_persist interval st tr k :
  JsMap.has (mockMembers st) k = true ->
  JsMap.has (mockMembers (run interval st tr)) k = true.
Proof.
  unfold JsMap.has. intros H.
  assert (H' : JsMap.get (mockMembers st) k <> None)
    by (destruct (JsMap.get (mockMembers st) k); [discriminate | discriminate]).
  apply (run_members_persist interval st tr) in H'.
  now destruct (JsMap.get (mockMembers (run interval st tr)) k).
Qed.

Lemma member_records_persist_witness :
  JsMap.has
    (mockMembers
       (run 5000 storeTwoMembers
          [ (serviceA, GetOnlineMemberCount 99999 "s1");
            (serviceB, TrackMember 99999 "s2" "m9");
            (serviceB, DeleteEntry "s1" uuidA) ]))
    (getMemberKey "s1" "m1") = true.
Proof.
  apply (member_records_persist 5000 storeTwoMembers). reflexivity.
Defined.

(** ** Growth of the entry map *)

Section GrowthFacts.
Variable interval : Z.

Lemma invoke_entries_length this c st :
  (List.length (mockEntries (fst (invoke interval this c st)))
   <= List.length (mockEntries st)
      + List.length (drawnIds [(this, c)]))%nat.
Proof.
  destruct c as [now sid mid|now sid|now eid txt ttl img sid mid
                |now sid|now sid eid|sid eid]; simpl; try lia.
  - unfold addEntry.
    destruct (validTimeValue (now + ttl * 1000)); simpl; [|lia].
    rewrite set_length.
    destruct (JsMap.has (mockEntries st) (getEntryKey sid eid)); lia.
  - unfold getEntry.
    destruct (JsMap.get (mockEntries st) (getEntryKey sid eid)) as [e0|];
      simpl; try lia.
    destruct (Entry.expiresAt e0 <=? now); simpl; try lia.
    pose proof (delete_length (mockEntries st) (getEntryKey sid eid)). lia.
  - pose proof (delete_length (mockEntries st) (getEntryKey sid eid)). lia.
Qed.
End GrowthFacts.

(** X15: only [addEntry] makes the entry map grow, by one entry at
    most: after any sequence of calls the map holds no more entries than
    it held before plus the number of [addEntry] calls made. *)
Theorem entry_map_growth interval st tr :
  (List.length (mockEntries (run interval st tr))
   <= List.length (mockEntries st) + List.length (drawnIds tr))%nat.
Proof.
  revert st. induction tr as [|[this c] tr IH]; intros st; simpl run.
  - simpl. lia.
  - specialize (IH (fst (invoke interval this c st))).
    pose proof (invoke_entries_length interval this c st) as H.
    change ((this, c) :: tr) with ([(this, c)] ++ tr).
    rewrite drawnIds_app, length_app. lia.
Qed.

Lemma getEntryKey_inj_entry sessionId entryId entryId' :
  getEntryKey sessionId entryId = getEntryKey sessionId entryId' ->
  entryId = entryId'.
Proof.
  unfold getEntryKey. intros H.
  change ("session:" ++ sessionId ++ ":entry:" ++ entryId)%string
    with ("session:" ++ (sessionId ++ (":entry:" ++ entryId)))%string in H.
  change ("session:" ++ sessionId ++ ":entry:" ++ entryId')%string
    with ("session:" ++ (sessionId ++ (":entry:" ++ entryId')))%string in H.
  do 2 apply append_cancel_l in H.
  now apply (append_cancel_l ":entry:").
Qed.

Section AddFacts.
Variable interval : Z.

(** A run of live additions to one session, under identifiers that are
    new to the map and pairwise distinct, lengthens the scan by one entry
    per addition. *)
Lemma run_adds_scan sessionId now tr st :
  forallb (liveAddTo sessionId now) tr = true ->
  NoDup (drawnIds tr) ->
  (forall u, In u (drawnIds tr) ->
     JsMap.get (mockEntries st) (getEntryKey sessionId u) = None) ->
  List.length (sessionEntries (run interval st tr) now sessionId)
  = (List.length (sessionEntries st now sessionId) + List.length tr)%nat.
Proof.
  revert st. induction tr as [|[this c] tr IH]; intros st Hall Hnd Habs.
  - simpl. lia.
  - simpl in Hall. apply andb_prop in Hall. destruct Hall as [Hc Hall].
    unfold liveAddTo in Hc. simpl in Hc.
    destruct c as [| |at_ eid txt ttl img sid mid| | |]; try discriminate.
    apply andb_prop in Hc. destruct Hc as [Hc Hlive].
    apply andb_prop in Hc. destruct Hc as [Hsid Hv].
    apply String.eqb_eq in Hsid. subst sid.
    simpl in Hnd. inversion Hnd as [|? ? Hfresh Hnd']; subst.
    simpl run. unfold addEntry. rewrite Hv. simpl fst.
    rewrite IH; auto.
    + unfold sessionEntries, JsMap.entries. simpl mockEntries.
      rewrite set_absent_appends by (apply Habs; simpl; auto).
      rewrite filter_app, map_app, length_app. simpl filter.
      unfold isSessionLive at 2. cbn [fst snd].
      rewrite startsWith_own_session. cbn [Entry.expiresAt newEntry].
      rewrite Hlive. simpl. lia.
    + intros u Hu. simpl mockEntries. rewrite get_set_other.
      * apply Habs. simpl. auto.
      * intros E. apply getEntryKey_inj_entry in E. subst u. tauto.
Qed.
End AddFacts.

(** X16: after nothing but additions to one session, made under
    pairwise distinct identifiers on the freshly loaded module, and while
    all of them are live, [getAllEntries] for that session returns as
    many entries as there were additions. *)
Theorem getAllEntries_counts_additions interval t0 tr now sessionId :
  forallb (liveAddTo sessionId now) tr = true ->
  distinct (drawnIds tr) = true ->
  tr <> [] ->
  List.length (getAllEntries (run interval (moduleInit t0) tr) now sessionId)
  = List.length tr.
Proof.
  intros Hall Hd Hne.
  pose proof (run_adds_scan interval sessionId now tr (moduleInit t0) Hall
                (distinct_NoDup _ Hd) (fun _ _ => eq_refl)) as Hlen.
  simpl in Hlen.
  rewrite getAllEntries_found.
  - now rewrite Array_sort_length.
  - intros E. rewrite E in Hlen. simpl in Hlen.
    destruct tr; [congruence | discriminate].
Qed.

Lemma getAllEntries_counts_additions_witness :
  List.length
    (getAllEntries
       (run 5000 (moduleInit 0)
          [ (serviceA, AddEntry 1000 uuidA "first" 60 None "s1" "m1");
            (serviceB, AddEntry 1005 uuidB "second" 30 None "s1" "m2") ])
       2000 "s1")
  = 2%nat.
Proof.
  apply (getAllEntries_counts_additions 5000 0
           [ (serviceA, AddEntry 1000 uuidA "first" 60 None "s1" "m1");
             (serviceB, AddEntry 1005 uuidB "second" 30 None "s1" "m2") ]
           2000 "s1");
    [reflexivity | reflexivity | discriminate].
Defined.

(** X17: the fallback is not subject to expiry.  Two hours after the
    module was loaded every sample has expired, and a session without a
    live entry still gets the three of them. *)
Theorem getAllEntries_fallback_ignores_expiry st now sessionId :
  sessionEntries st now sessionId = [] ->
  loadTime st + 7200000 <= now ->
  List.length (getAllEntries st now sessionId) = 3%nat
  /\ forall e, In e (getAllEntries st now sessionId) ->
       Entry.expiresAt e <= now.
Proof.
  intros Hnone Hlate. unfold getAllEntries. rewrite Hnone. simpl Nat.eqb.
  cbv iota. rewrite sampleEntries_sorted. split; [reflexivity|].
  intros e [<-|[<-|[<-|[]]]]; simpl; lia.
Qed.

Lemma getAllEntries_fallback_ignores_expiry_witness :
  sessionEntries (moduleInit 0) 7200000 "s1" = []
  /\ List.length (getAllEntries (moduleInit 0) 7200000 "s1") = 3%nat.
Proof.
  split; [reflexivity|].
  destruct (getAllEntries_fallback_ignores_expiry
              (moduleInit 0) 7200000 "s1") as [H _];
    [reflexivity | simpl; lia | exact H].
Defined.

(** ** Isolation between sessions without colons *)

Lemma colonFree_split_eq s s' r r' :
  colonFree s = true -> colonFree s' = true ->
  (s ++ String colon r = s' ++ String colon r')%string ->
  s = s' /\ r = r'.
Proof.
  intros Hc Hc' H.
  assert (Hs : s = s').
  { eapply colonFree_prefix_eq; eauto. rewrite H. apply prefix_refl. }
  subst s'. split; auto.
  apply append_cancel_l in H. now inversion H.
Qed.

Lemma getMemberKey_inj sessionId sessionId' memberId memberId' :
  colonFree sessionId = true -> colonFree sessionId' = true ->
  getMemberKey sessionId memberId = getMemberKey sessionId' memberId' ->
  sessionId = sessionId' /\ memberId = memberId'.
Proof.
  unfold getMemberKey. intros Hc Hc' H.
  change ("session:" ++ sessionId ++ ":member:" ++ memberId)%string
    with ("session:"
          ++ (sessionId ++ String colon ("member:" ++ memberId)))%string in H.
  change ("session:" ++ sessionId' ++ ":member:" ++ memberId')%string
    with ("session:"
          ++ (sessionId' ++ String colon ("member:" ++ memberId')))%string
    in H.
  apply append_cancel_l in H.
  apply colonFree_split_eq in H; auto. destruct H as [Hs H].
  split; auto. now apply (append_cancel_l "member:").
Qed.

(** X18: between sessions whose identifiers hold no colon, a heartbeat
    of one member leaves the record of every other session and member
    pair as it was. *)
Theorem trackMember_leaves_others
    st now sessionId memberId sessionId' memberId' :
  colonFree sessionId = true ->
  colonFree sessionId' = true ->
  sessionId <> sessionId' \/ memberId <> memberId' ->
  JsMap.get (mockMembers (trackMember st now sessionId memberId))
    (getMemberKey sessionId' memberId')
  = JsMap.get (mockMembers st) (getMemberKey sessionId' memberId').
Proof.
  intros Hc Hc' Hne. simpl. apply get_set_other.
  intros E. apply getMemberKey_inj in E; auto. tauto.
Qed.

Lemma trackMember_leaves_others_witness :
  JsMap.get (mockMembers (trackMember storeTwoMembers 500 "s1" "m3"))
    (getMemberKey "s1" "m1")
  = JsMap.get (mockMembers storeTwoMembers) (getMemberKey "s1" "m1").
Proof.
  apply (trackMember_leaves_others storeTwoMembers 500 "s1" "m3" "s1" "m1");
    [reflexivity | reflexivity | right; discriminate].
Defined.

Lemma getEntry_result_ext st st' now sessionId entryId :
  JsMap.get (mockEntries st') (getEntryKey sessionId entryId)
  = JsMap.get (mockEntries st) (getEntryKey sessionId entryId) ->
  loadTime st' = loadTime st ->
  snd (getEntry st' now sessionId entryId)
  = snd (getEntry st now sessionId entryId).
Proof.
  intros Hg Hl. unfold getEntry. rewrite Hg.
  destruct (JsMap.get (mockEntries st) (getEntryKey sessionId entryId))
    as [e|].
  - now destruct (Entry.expiresAt e <=? now).
  - simpl. unfold sampleEntries. now rewrite Hl.
Qed.

(** X19: between sessions whose identifiers hold no colon, an
    [addEntry], [getEntry] or [deleteEntry] made for one session and
    entry identifier does not change what [getEntry] returns for any
    other session and entry identifier. *)
Theorem getEntry_unaffected_by_other_pairs
    interval this c st now sessionId entryId sessionId' entryId' :
  colonFree sessionId = true ->
  colonFree sessionId' = true ->
  touchedKey c = Some (getEntryKey sessionId entryId) ->
  sessionId <> sessionId' \/ entryId <> entryId' ->
  snd (getEntry (fst (invoke interval this c st)) now sessionId' entryId')
  = snd (getEntry st now sessionId' entryId').
Proof.
  intros Hc Hc' Hk Hne. apply getEntry_result_ext.
  - apply invoke_get_other. rewrite Hk. intros E.
    assert (E' : getEntryKey sessionId entryId
                 = getEntryKey sessionId' entryId') by congruence.
    apply getEntryKey_inj in E'; auto. tauto.
  - apply invoke_loadTime.
Qed.

Lemma getEntry_unaffected_by_other_pairs_witness :
  snd (getEntry
         (fst (invoke 5000 serviceB (DeleteEntry "s2" uuidA) storeOneEntry))
         1500 "s1" uuidA)
  = snd (getEntry storeOneEntry 1500 "s1" uuidA).
Proof.
  apply (getEntry_unaffected_by_other_pairs
           5000 serviceB (DeleteEntry "s2" uuidA) storeOneEntry 1500
           "s2" uuidA "s1" uuidA);
    [reflexivity | reflexivity | reflexivity | left; discriminate].
Defined.
